(** * A shallow embedding of the Sudoku solver (sudoku.py)

    The solver keeps a "markup": a Python list of 81 strings, the string at
    index [i] listing the digits still possible for square [i].  The
    propagator ([eliminate], [assign]) mutates that list in place and
    returns either the list itself or [None]; the search ([solve]) copies
    the list before every speculative assignment.

    The embedding threads the list through a small state-and-exception
    monad, so that in-place mutation, the [None] result and the Python
    exceptions the code can raise ([IndexError], [UnboundLocalError]) are
    all visible.  Recursion is bounded by explicit fuel; running out of
    fuel is a separate outcome, [Timeout], which is never a Python
    behaviour; the interpreter's own limit on recursion depth is not
    modelled. *)

From Stdlib Require Import String Ascii.
From stdpp Require Import base list strings.


(** ** Data *)

(** A candidate string, e.g. ["1379"]; the source stores candidate sets as
    strings of digit characters. *)
Abbreviation cell := (list ascii).

(** The markup: a list of candidate strings indexed by square. *)
Abbreviation Markup := (list cell).

(** A grid as read from a file: one character per square, ['0'] for empty. *)
Abbreviation grid := (list ascii).

Inductive exn : Type :=
| IndexError
| UnboundLocalError.

Inductive outcome (A : Type) : Type :=
| Val (a : A)
| Raise (e : exn)
| Timeout.

Arguments Val {A} a.
Arguments Raise {A} e.
Arguments Timeout {A}.

(** What [eliminate] and [assign] hand back: the list object [m] they were
    given (whose contents are the current store), or [None]. *)
Inductive pyret : Type :=
| RetM
| RetNone.

(** ** Topology (module-level tables of sudoku.py) *)

Definition rows : list (list nat) :=
  map (fun i => seq i 9) [0; 9; 18; 27; 36; 45; 54; 63; 72].

Definition cols : list (list nat) :=
  map (fun i => map (fun k => i + 9 * k) (seq 0 9)) (seq 0 9).

Definition boxes : list (list nat) :=
  map (fun i => [i; i + 1; i + 2; i + 9; i + 10; i + 11; i + 18; i + 19; i + 20])
      [0; 3; 6; 27; 30; 33; 54; 57; 60].

(** [units[i]] is the triple (row, column, box) of square [i]; the triple
    is kept as a three-element list because the code only iterates it. *)
Definition units : list (list (list nat)) :=
  map (fun i => [nth (i / 9) rows []; nth (i mod 9) cols [];
                 nth (3 * (i / 27) + (i mod 9) / 3) boxes []])
      (seq 0 81).

(** The elements of the set [aoe[i]], listed in ascending order. *)
Definition aoe_elems (i : nat) : list nat :=
  filter (fun x => x ≠ i ∧ Exists (fun u => x ∈ u) (nth i units [])) (seq 0 81).

Definition aoe_asc : list (list nat) := map aoe_elems (seq 0 81).

Definition fullset : cell :=
  ["1"; "2"; "3"; "4"; "5"; "6"; "7"; "8"; "9"]%char.

(** ** The state-and-exception monad *)

Definition M (A : Type) : Type := Markup -> Markup * outcome A.

Definition ret {A} (a : A) : M A := fun m => (m, Val a).

Definition timeout {A} : M A := fun m => (m, Timeout).

Definition bind {A B} (c : M A) (k : A -> M B) : M B :=
  fun m =>
    match c m with
    | (m', Val a) => k a m'
    | (m', Raise e) => (m', Raise e)
    | (m', Timeout) => (m', Timeout)
    end.

Notation "x <~ c ;; k" := (bind c (fun x => k))
  (at level 100, c at next level, right associativity).

(** [m[i]] as an expression. *)
Definition getitem (i : nat) : M cell :=
  fun m => match m !! i with
           | Some s => (m, Val s)
           | None => (m, Raise IndexError)
           end.

(** [m[i] = w] as a statement. *)
Definition setitem (i : nat) (w : cell) : M unit :=
  fun m => if decide (i < length m) then (<[i := w]> m, Val tt)
           else (m, Raise IndexError).

(** Truth value of the object returned by [eliminate] or [assign]: [None]
    is false, and the list [m] is true unless empty. *)
Definition truthy (r : pyret) : M bool :=
  fun m => (m, Val match r with
                   | RetNone => false
                   | RetM => match m with [] => false | _ => true end
                   end).

(** [all(f(x) for x in xs)]: calls run in order and stop at the first
    false result. *)
Fixpoint py_all {X} (f : X -> M pyret) (xs : list X) : M bool :=
  match xs with
  | [] => ret true
  | x :: xs' =>
      r <~ f x ;;
      t <~ truthy r ;;
      if t then py_all f xs' else ret false
  end.

(** ** String helpers *)

(** [v in s] for a one-character [v]. *)
Definition char_in (v : ascii) (s : cell) : bool := existsb (Ascii.eqb v) s.

(** [s.replace(v, '')] for a one-character [v]. *)
Definition replace (v : ascii) (s : cell) : cell :=
  List.filter (fun c => negb (Ascii.eqb c v)) s.

(** ** The propagator *)

Section Solver.

(** [aoe] is a tuple of Python sets.  The order in which a set is iterated
    is not fixed by the language, so the table is a parameter: any listing
    of the sets' elements. *)
Variable aoe : list (list nat).

(** [''.join(S)] for a set [S] of characters, given by its elements in
    ascending order: again some listing of the elements. *)
Variable join : cell -> cell.

Definition aoe_at (i : nat) : M (list nat) :=
  fun m => match aoe !! i with
           | Some ps => (m, Val ps)
           | None => (m, Raise IndexError)
           end.

Definition units_at (i : nat) : M (list (list nat)) :=
  fun m => match units !! i with
           | Some us => (m, Val us)
           | None => (m, Raise IndexError)
           end.

(** [[j for j in unit if v in m[j]]] *)
Fixpoint places (v : ascii) (unit : list nat) : M (list nat) :=
  match unit with
  | [] => ret []
  | j :: unit' =>
      s <~ getitem j ;;
      ps <~ places v unit' ;;
      ret (if char_in v s then j :: ps else ps)
  end.

(** The body of [assign], over whatever [eliminate] is available. *)
Definition assign_with (elim : nat -> ascii -> M pyret)
    (i : nat) (v : ascii) : M pyret :=
  s <~ getitem i ;;
  ok <~ py_all (fun w => elim i w)
         (List.filter (fun w => negb (Ascii.eqb w v)) s) ;;
  if ok then ret RetM else ret RetNone.

(** The loop [for unit in units[i]: ...] closing [eliminate]. *)
Fixpoint unit_loop (asg : nat -> ascii -> M pyret) (v : ascii)
    (us : list (list nat)) : M pyret :=
  match us with
  | [] => ret RetM
  | unit :: us' =>
      ps <~ places v unit ;;
      match ps with
      | [] => ret RetNone
      | [p] =>
          r <~ asg p v ;;
          t <~ truthy r ;;
          if t then unit_loop asg v us' else ret RetNone
      | _ => unit_loop asg v us'
      end
  end.

Fixpoint eliminate (fuel : nat) (i : nat) (v : ascii) {struct fuel} : M pyret :=
  match fuel with
  | 0 => timeout
  | S fuel' =>
      s <~ getitem i ;;
      if negb (char_in v s) then ret RetM else
      let w := replace v s in
      _ <~ setitem i w ;;
      match w with
      | [] => ret RetNone
      | _ =>
          ok <~ match w with
                | [c] =>
                    peers <~ aoe_at i ;;
                    py_all (fun j => eliminate fuel' j c) peers
                | _ => ret true
                end ;;
          if ok then
            us <~ units_at i ;;
            unit_loop (assign_with (eliminate fuel')) v us
          else ret RetNone
      end
  end.

Definition assign (fuel : nat) (i : nat) (v : ascii) : M pyret :=
  assign_with (eliminate fuel) i v.

(** ** The search *)

Definition solved (m : Markup) : bool :=
  forallb (fun s => length s =? 1) m.

(** The scan [for i, s in enumerate(m)] choosing [min_i]; [None] stands for
    the local variable never having been bound. *)
Fixpoint scan (min_len : nat) (min_i : option nat) (i : nat) (m : Markup)
  : option nat :=
  match m with
  | [] => min_i
  | s :: m' =>
      if (1 <? length s) && (length s <? min_len) then
        if length s =? 2 then Some i
        else scan (length s) (Some i) (S i) m'
      else scan min_len min_i (S i) m'
  end.

(** [for v in s: n = body(v); if n: return n] followed by [return None]. *)
Fixpoint try_values (body : ascii -> outcome (option Markup)) (s : cell)
  : outcome (option Markup) :=
  match s with
  | [] => Val None
  | v :: s' =>
      match body v with
      | Val (Some ((_ :: _) as n)) => Val (Some n)
      | Val _ => try_values body s'
      | Raise e => Raise e
      | Timeout => Timeout
      end
  end.

(** [solve(m)].  The argument is [None] or a list.  [depth] bounds the
    nesting of [solve] calls, [fuel] that of [eliminate] calls within one
    [assign].  [assign] works on the copy [m[:]], so the store it leaves
    behind is dropped unless it is the returned object. *)
Fixpoint solve (depth fuel : nat) (a : option Markup) {struct depth}
  : outcome (option Markup) :=
  match depth with
  | 0 => Timeout
  | S depth' =>
      match a with
      | None | Some [] => Val None
      | Some m =>
          if solved m then Val (Some m) else
          match scan 9 None 0 m with
          | None => Raise UnboundLocalError
          | Some min_i =>
              match m !! min_i with
              | None => Raise IndexError
              | Some s =>
                  try_values
                    (fun v =>
                       match assign fuel min_i v m with
                       | (m', Val RetM) => solve depth' fuel (Some m')
                       | (_, Val RetNone) => solve depth' fuel None
                       | (_, Raise e) => Raise e
                       | (_, Timeout) => Timeout
                       end) s
              end
          end
      end
  end.

(** ** Building the markup *)

(** [[grid[j] for j in js]] *)
Fixpoint gather (g : grid) (js : list nat) : outcome (list ascii) :=
  match js with
  | [] => Val []
  | j :: js' =>
      match g !! j with
      | None => Raise IndexError
      | Some c =>
          match gather g js' with
          | Val cs => Val (c :: cs)
          | o => o
          end
      end
  end.

(** One element of the list comprehension of [markup]. *)
Definition markup_cell (g : grid) (i : nat) : outcome cell :=
  match g !! i with
  | None => Raise IndexError
  | Some c =>
      if Ascii.eqb c "0"%char then
        match aoe !! i with
        | None => Raise IndexError
        | Some ps =>
            match gather g ps with
            | Val cs =>
                Val (join (List.filter (fun d => negb (char_in d cs)) fullset))
            | Raise e => Raise e
            | Timeout => Timeout
            end
        end
      else Val [c]
  end.

Fixpoint markup_from (g : grid) (ixs : list nat) : outcome Markup :=
  match ixs with
  | [] => Val []
  | i :: ixs' =>
      match markup_cell g i with
      | Val s =>
          match markup_from g ixs' with
          | Val m => Val (s :: m)
          | o => o
          end
      | Raise e => Raise e
      | Timeout => Timeout
      end
  end.

Definition markup (g : grid) : outcome Markup := markup_from g (seq 0 81).

(** [solve(markup(grid))] *)
Definition solve_grid (depth fuel : nat) (g : grid) : outcome (option Markup) :=
  match markup g with
  | Val m => solve depth fuel (Some m)
  | Raise e => Raise e
  | Timeout => Timeout
  end.

End Solver.

(** ** The consistency check on grids *)

(** [quick_check(grid)]: no unit repeats a digit among its filled
    squares. *)
Fixpoint no_repeat_in (g : grid) (us : list (list nat)) : outcome bool :=
  match us with
  | [] => Val true
  | s :: us' =>
      match gather g s with
      | Val cs =>
          let t := List.filter (fun c => negb (Ascii.eqb c "0"%char)) cs in
          if length t =? length (remove_dups t) then no_repeat_in g us'
          else Val false
      | Raise e => Raise e
      | Timeout => Timeout
      end
  end.

Definition quick_check (g : grid) : outcome bool :=
  no_repeat_in g (rows ++ cols ++ boxes).

(** ** Relations between stores *)

(** One candidate string against its earlier self: characters were only
    struck out, and not all of them. *)
Definition cell_le (s s' : cell) : Prop :=
  sublist s' s ∧ (s ≠ [] → s' ≠ []).

(** [shrinks m m']: [m'] has the length of [m] and every string of [m'] is
    its counterpart in [m] with characters struck out, non-empty if the
    original was. *)
Definition shrinks (m m' : Markup) : Prop := Forall2 cell_le m m'.

(** Value [c] is not a candidate of square [j]. *)
Definition absent (c : ascii) (j : nat) (m : Markup) : Prop :=
  ∀ s, m !! j = Some s → c ∉ s.

(** Square [k] is clean when, if it is down to the single value [c], no
    square of [aoe[k]] still lists [c]. *)
Definition clean (aoe : list (list nat)) (m : Markup) (k : nat) : Prop :=
  ∀ c ps, m !! k = Some [c] → aoe !! k = Some ps →
          ∀ j, j ∈ ps → absent c j m.

(** The relation between the store before and after a call that returned
    the list. *)
Definition keeps (aoe : list (list nat)) (m m' : Markup) : Prop :=
  shrinks m m' ∧ ∀ k, clean aoe m k → clean aoe m' k.

(** ** Well-formed markups and their measures *)

(** All 81 candidate strings are non-empty and made of the digits 1-9. *)
Definition candidates_ok (m : Markup) : Prop :=
  length m = 81 ∧ Forall (λ s : cell, s ≠ [] ∧ ∀ c, c ∈ s → c ∈ fullset) m.

(** Every candidate character is one of the digits 1-9. *)
Definition digits_only (m : Markup) : Prop :=
  Forall (λ s : cell, ∀ c, c ∈ s → c ∈ fullset) m.

(** No two squares sharing a unit are determined to the same digit. *)
Definition no_clash (aoe : list (list nat)) (m : Markup) : Prop :=
  ∀ x y ps c, aoe !! x = Some ps → y ∈ ps →
              m !! x = Some [c] → m !! y = Some [c] → False.

(** Number of candidate characters on the board. *)
Definition total (m : Markup) : nat := sum_list (length <$> m).

(** Number of squares with more than one candidate. *)
Definition undetermined (m : Markup) : nat :=
  sum_list ((λ s : cell, if 1 <? length s then 1 else 0) <$> m).

(** ** Units of a returned markup *)

(** The 27 units. *)
Definition all_units : list (list nat) := rows ++ cols ++ boxes.

(** [aoe] lists, for each square, the elements of its set in some order. *)
Definition lists_aoe (aoe : list (list nat)) : Prop :=
  Forall2 (≡ₚ) aoe aoe_asc.

(** Decoding a solved square: its single remaining candidate. *)
Definition digit_at (r : Markup) (j : nat) : ascii :=
  match r !! j with
  | Some [d] => d
  | _ => "0"%char
  end.

(** Unit [u] of [r] is complete: its squares are determined and their
    digits are the digits 1-9, each once. *)
Definition unit_complete (r : Markup) (u : list nat) : Prop :=
  Forall (λ j, ∃ d, r !! j = Some [d]) u ∧ digit_at r <$> u ≡ₚ fullset.

(** Squares [i] and [j] of unit [u] hold the same digit [c] in grid [g]. *)
Definition duplicate_in_unit (g : grid) (u : list nat) (i j : nat) (c : ascii)
  : Prop :=
  u ∈ all_units ∧ i ∈ u ∧ j ∈ u ∧ i ≠ j ∧
  g !! i = Some c ∧ g !! j = Some c ∧ c ≠ "0"%char.

(** Value [v] has a place in unit [u]: some square of [u] lists it. *)
Definition has_place (m : Markup) (u : list nat) (v : ascii) : Prop :=
  ∃ j s, j ∈ u ∧ m !! j = Some s ∧ v ∈ s.

(** Every value keeps a place in each of the 27 units where it had one. *)
Definition holds_places (m m' : Markup) : Prop :=
  ∀ u v, u ∈ all_units → has_place m u v → has_place m' u v.

(** [has_place] as a check that can be run. *)
Definition has_placeb (m : Markup) (u : list nat) (v : ascii) : bool :=
  existsb (λ j, match m !! j with
                | Some s => char_in v s
                | None => false
                end) u.

(** ** The branch step as the specification words it *)

(** The candidate characters in increasing numeric order. *)
Fixpoint insert_ascending (c : ascii) (s : cell) : cell :=
  match s with
  | [] => [c]
  | d :: s' =>
      if nat_of_ascii c <=? nat_of_ascii d then c :: s
      else d :: insert_ascending c s'
  end.

(** Insertion sort of a candidate string. *)
Definition ascending (s : cell) : cell := foldr insert_ascending [] s.

(** [solve(assign(m[:], i, v))]: the assignment works on a copy, so only
    its result reaches the recursive call. *)
Definition solve_assigned (aoe : list (list nat)) (depth fuel : nat)
    (m : Markup) (i : nat) (v : ascii) : outcome (option Markup) :=
  match (assign aoe fuel i v m).2 with
  | Val RetM => solve aoe depth fuel (Some (assign aoe fuel i v m).1)
  | Val RetNone => solve aoe depth fuel None
  | Raise e => Raise e
  | Timeout => Timeout
  end.

(** The branch step in the spec's words: for the candidate values taken in
    the given order, each on a fresh copy of the markup, the first result
    that is not FAIL; FAIL if there is none. *)
Definition first_non_fail (os : list (outcome (option Markup)))
  : outcome (option Markup) :=
  default (Val None)
          (List.find (λ o, match o with Val None => false | _ => true end) os).

(** The specification's branch step on square [i] of [m], for its values
    in [order]. *)
Definition spec_branch (aoe : list (list nat)) (depth fuel : nat)
    (m : Markup) (i : nat) (order : cell) : outcome (option Markup) :=
  first_non_fail (solve_assigned aoe depth fuel m i <$> order).

(** ** Checks that can be run *)

(** [no_clash] as a check that can be run. *)
Definition no_clashb (aoe : list (list nat)) (m : Markup) : bool :=
  forallb (λ x,
    match aoe !! x, m !! x with
    | Some ps, Some [c] =>
        forallb (λ y, match m !! y with
                      | Some [d] => negb (Ascii.eqb c d)
                      | _ => true
                      end) ps
    | _, _ => true
    end) (seq 0 (length aoe)).

(** [digits_only] as a check that can be run. *)
Definition digits_onlyb (m : Markup) : bool :=
  forallb (λ s : cell, forallb (λ c, char_in c fullset) s) m.

(** ** Sample grids and markups *)

(** The table [aoe_asc] written out, for running the solver. *)
Definition aoe_table : list (list nat) :=
  [[1; 2; 3; 4; 5; 6; 7; 8; 9; 10; 11; 18; 19; 20; 27; 36; 45; 54; 63; 72];
   [0; 2; 3; 4; 5; 6; 7; 8; 9; 10; 11; 18; 19; 20; 28; 37; 46; 55; 64; 73];
   [0; 1; 3; 4; 5; 6; 7; 8; 9; 10; 11; 18; 19; 20; 29; 38; 47; 56; 65; 74];
   [0; 1; 2; 4; 5; 6; 7; 8; 12; 13; 14; 21; 22; 23; 30; 39; 48; 57; 66; 75];
   [0; 1; 2; 3; 5; 6; 7; 8; 12; 13; 14; 21; 22; 23; 31; 40; 49; 58; 67; 76];
   [0; 1; 2; 3; 4; 6; 7; 8; 12; 13; 14; 21; 22; 23; 32; 41; 50; 59; 68; 77];
   [0; 1; 2; 3; 4; 5; 7; 8; 15; 16; 17; 24; 25; 26; 33; 42; 51; 60; 69; 78];
   [0; 1; 2; 3; 4; 5; 6; 8; 15; 16; 17; 24; 25; 26; 34; 43; 52; 61; 70; 79];
   [0; 1; 2; 3; 4; 5; 6; 7; 15; 16; 17; 24; 25; 26; 35; 44; 53; 62; 71; 80];
   [0; 1; 2; 10; 11; 12; 13; 14; 15; 16; 17; 18; 19; 20; 27; 36; 45; 54; 63; 72];
   [0; 1; 2; 9; 11; 12; 13; 14; 15; 16; 17; 18; 19; 20; 28; 37; 46; 55; 64; 73];
   [0; 1; 2; 9; 10; 12; 13; 14; 15; 16; 17; 18; 19; 20; 29; 38; 47; 56; 65; 74];
   [3; 4; 5; 9; 10; 11; 13; 14; 15; 16; 17; 21; 22; 23; 30; 39; 48; 57; 66; 75];
   [3; 4; 5; 9; 10; 11; 12; 14; 15; 16; 17; 21; 22; 23; 31; 40; 49; 58; 67; 76];
   [3; 4; 5; 9; 10; 11; 12; 13; 15; 16; 17; 21; 22; 23; 32; 41; 50; 59; 68; 77];
   [6; 7; 8; 9; 10; 11; 12; 13; 14; 16; 17; 24; 25; 26; 33; 42; 51; 60; 69; 78];
   [6; 7; 8; 9; 10; 11; 12; 13; 14; 15; 17; 24; 25; 26; 34; 43; 52; 61; 70; 79];
   [6; 7; 8; 9; 10; 11; 12; 13; 14; 15; 16; 24; 25; 26; 35; 44; 53; 62; 71; 80];
   [0; 1; 2; 9; 10; 11; 19; 20; 21; 22; 23; 24; 25; 26; 27; 36; 45; 54; 63; 72];
   [0; 1; 2; 9; 10; 11; 18; 20; 21; 22; 23; 24; 25; 26; 28; 37; 46; 55; 64; 73];
   [0; 1; 2; 9; 10; 11; 18; 19; 21; 22; 23; 24; 25; 26; 29; 38; 47; 56; 65; 74];
   [3; 4; 5; 12; 13; 14; 18; 19; 20; 22; 23; 24; 25; 26; 30; 39; 48; 57; 66; 75];
   [3; 4; 5; 12; 13; 14; 18; 19; 20; 21; 23; 24; 25; 26; 31; 40; 49; 58; 67; 76];
   [3; 4; 5; 12; 13; 14; 18; 19; 20; 21; 22; 24; 25; 26; 32; 41; 50; 59; 68; 77];
   [6; 7; 8; 15; 16; 17; 18; 19; 20; 21; 22; 23; 25; 26; 33; 42; 51; 60; 69; 78];
   [6; 7; 8; 15; 16; 17; 18; 19; 20; 21; 22; 23; 24; 26; 34; 43; 52; 61; 70; 79];
   [6; 7; 8; 15; 16; 17; 18; 19; 20; 21; 22; 23; 24; 25; 35; 44; 53; 62; 71; 80];
   [0; 9; 18; 28; 29; 30; 31; 32; 33; 34; 35; 36; 37; 38; 45; 46; 47; 54; 63; 72];
   [1; 10; 19; 27; 29; 30; 31; 32; 33; 34; 35; 36; 37; 38; 45; 46; 47; 55; 64; 73];
   [2; 11; 20; 27; 28; 30; 31; 32; 33; 34; 35; 36; 37; 38; 45; 46; 47; 56; 65; 74];
   [3; 12; 21; 27; 28; 29; 31; 32; 33; 34; 35; 39; 40; 41; 48; 49; 50; 57; 66; 75];
   [4; 13; 22; 27; 28; 29; 30; 32; 33; 34; 35; 39; 40; 41; 48; 49; 50; 58; 67; 76];
   [5; 14; 23; 27; 28; 29; 30; 31; 33; 34; 35; 39; 40; 41; 48; 49; 50; 59; 68; 77];
   [6; 15; 24; 27; 28; 29; 30; 31; 32; 34; 35; 42; 43; 44; 51; 52; 53; 60; 69; 78];
   [7; 16; 25; 27; 28; 29; 30; 31; 32; 33; 35; 42; 43; 44; 51; 52; 53; 61; 70; 79];
   [8; 17; 26; 27; 28; 29; 30; 31; 32; 33; 34; 42; 43; 44; 51; 52; 53; 62; 71; 80];
   [0; 9; 18; 27; 28; 29; 37; 38; 39; 40; 41; 42; 43; 44; 45; 46; 47; 54; 63; 72];
   [1; 10; 19; 27; 28; 29; 36; 38; 39; 40; 41; 42; 43; 44; 45; 46; 47; 55; 64; 73];
   [2; 11; 20; 27; 28; 29; 36; 37; 39; 40; 41; 42; 43; 44; 45; 46; 47; 56; 65; 74];
   [3; 12; 21; 30; 31; 32; 36; 37; 38; 40; 41; 42; 43; 44; 48; 49; 50; 57; 66; 75];
   [4; 13; 22; 30; 31; 32; 36; 37; 38; 39; 41; 42; 43; 44; 48; 49; 50; 58; 67; 76];
   [5; 14; 23; 30; 31; 32; 36; 37; 38; 39; 40; 42; 43; 44; 48; 49; 50; 59; 68; 77];
   [6; 15; 24; 33; 34; 35; 36; 37; 38; 39; 40; 41; 43; 44; 51; 52; 53; 60; 69; 78];
   [7; 16; 25; 33; 34; 35; 36; 37; 38; 39; 40; 41; 42; 44; 51; 52; 53; 61; 70; 79];
   [8; 17; 26; 33; 34; 35; 36; 37; 38; 39; 40; 41; 42; 43; 51; 52; 53; 62; 71; 80];
   [0; 9; 18; 27; 28; 29; 36; 37; 38; 46; 47; 48; 49; 50; 51; 52; 53; 54; 63; 72];
   [1; 10; 19; 27; 28; 29; 36; 37; 38; 45; 47; 48; 49; 50; 51; 52; 53; 55; 64; 73];
   [2; 11; 20; 27; 28; 29; 36; 37; 38; 45; 46; 48; 49; 50; 51; 52; 53; 56; 65; 74];
   [3; 12; 21; 30; 31; 32; 39; 40; 41; 45; 46; 47; 49; 50; 51; 52; 53; 57; 66; 75];
   [4; 13; 22; 30; 31; 32; 39; 40; 41; 45; 46; 47; 48; 50; 51; 52; 53; 58; 67; 76];
   [5; 14; 23; 30; 31; 32; 39; 40; 41; 45; 46; 47; 48; 49; 51; 52; 53; 59; 68; 77];
   [6; 15; 24; 33; 34; 35; 42; 43; 44; 45; 46; 47; 48; 49; 50; 52; 53; 60; 69; 78];
   [7; 16; 25; 33; 34; 35; 42; 43; 44; 45; 46; 47; 48; 49; 50; 51; 53; 61; 70; 79];
   [8; 17; 26; 33; 34; 35; 42; 43; 44; 45; 46; 47; 48; 49; 50; 51; 52; 62; 71; 80];
   [0; 9; 18; 27; 36; 45; 55; 56; 57; 58; 59; 60; 61; 62; 63; 64; 65; 72; 73; 74];
   [1; 10; 19; 28; 37; 46; 54; 56; 57; 58; 59; 60; 61; 62; 63; 64; 65; 72; 73; 74];
   [2; 11; 20; 29; 38; 47; 54; 55; 57; 58; 59; 60; 61; 62; 63; 64; 65; 72; 73; 74];
   [3; 12; 21; 30; 39; 48; 54; 55; 56; 58; 59; 60; 61; 62; 66; 67; 68; 75; 76; 77];
   [4; 13; 22; 31; 40; 49; 54; 55; 56; 57; 59; 60; 61; 62; 66; 67; 68; 75; 76; 77];
   [5; 14; 23; 32; 41; 50; 54; 55; 56; 57; 58; 60; 61; 62; 66; 67; 68; 75; 76; 77];
   [6; 15; 24; 33; 42; 51; 54; 55; 56; 57; 58; 59; 61; 62; 69; 70; 71; 78; 79; 80];
   [7; 16; 25; 34; 43; 52; 54; 55; 56; 57; 58; 59; 60; 62; 69; 70; 71; 78; 79; 80];
   [8; 17; 26; 35; 44; 53; 54; 55; 56; 57; 58; 59; 60; 61; 69; 70; 71; 78; 79; 80];
   [0; 9; 18; 27; 36; 45; 54; 55; 56; 64; 65; 66; 67; 68; 69; 70; 71; 72; 73; 74];
   [1; 10; 19; 28; 37; 46; 54; 55; 56; 63; 65; 66; 67; 68; 69; 70; 71; 72; 73; 74];
   [2; 11; 20; 29; 38; 47; 54; 55; 56; 63; 64; 66; 67; 68; 69; 70; 71; 72; 73; 74];
   [3; 12; 21; 30; 39; 48; 57; 58; 59; 63; 64; 65; 67; 68; 69; 70; 71; 75; 76; 77];
   [4; 13; 22; 31; 40; 49; 57; 58; 59; 63; 64; 65; 66; 68; 69; 70; 71; 75; 76; 77];
   [5; 14; 23; 32; 41; 50; 57; 58; 59; 63; 64; 65; 66; 67; 69; 70; 71; 75; 76; 77];
   [6; 15; 24; 33; 42; 51; 60; 61; 62; 63; 64; 65; 66; 67; 68; 70; 71; 78; 79; 80];
   [7; 16; 25; 34; 43; 52; 60; 61; 62; 63; 64; 65; 66; 67; 68; 69; 71; 78; 79; 80];
   [8; 17; 26; 35; 44; 53; 60; 61; 62; 63; 64; 65; 66; 67; 68; 69; 70; 78; 79; 80];
   [0; 9; 18; 27; 36; 45; 54; 55; 56; 63; 64; 65; 73; 74; 75; 76; 77; 78; 79; 80];
   [1; 10; 19; 28; 37; 46; 54; 55; 56; 63; 64; 65; 72; 74; 75; 76; 77; 78; 79; 80];
   [2; 11; 20; 29; 38; 47; 54; 55; 56; 63; 64; 65; 72; 73; 75; 76; 77; 78; 79; 80];
   [3; 12; 21; 30; 39; 48; 57; 58; 59; 66; 67; 68; 72; 73; 74; 76; 77; 78; 79; 80];
   [4; 13; 22; 31; 40; 49; 57; 58; 59; 66; 67; 68; 72; 73; 74; 75; 77; 78; 79; 80];
   [5; 14; 23; 32; 41; 50; 57; 58; 59; 66; 67; 68; 72; 73; 74; 75; 76; 78; 79; 80];
   [6; 15; 24; 33; 42; 51; 60; 61; 62; 69; 70; 71; 72; 73; 74; 75; 76; 77; 79; 80];
   [7; 16; 25; 34; 43; 52; 60; 61; 62; 69; 70; 71; 72; 73; 74; 75; 76; 77; 78; 80];
   [8; 17; 26; 35; 44; 53; 60; 61; 62; 69; 70; 71; 72; 73; 74; 75; 76; 77; 78; 79]].


(** The markup [markup(grid)] built, or the empty list. *)
Definition val_or_nil (o : outcome Markup) : Markup :=
  match o with Val m => m | _ => [] end.

(** The markup a search returned, or the empty list. *)
Definition the_markup (o : outcome (option Markup)) : Markup :=
  match o with Val (Some r) => r | _ => [] end.

(** A puzzle that propagation alone solves. *)
Definition easy_grid : grid :=
  list_ascii_of_string
    "003020600900305001001806400008102900700000008006708200002609500800203009005010300".

(** Its initial markup, under ascending iteration orders. *)
Definition easy_markup : Markup := val_or_nil (markup aoe_table id easy_grid).

(** The grid of 81 blanks. *)
Definition blank_grid : grid := replicate 81 "0"%char.

(** The grid of 81 fives. *)
Definition fives_grid : grid := replicate 81 "5"%char.

(** Two 5s at the head of the first row, all else blank. *)
Definition two_fives_grid : grid :=
  "5"%char :: "5"%char :: replicate 79 "0"%char.

(** A completed grid whose first square was changed from 4 to 8. *)
Definition spoiled_grid : grid :=
  list_ascii_of_string
    "883921657967345821251876493548132976729564138136798245372689514814253769695417382".

(** A grid whose filled squares repeat no digit in any unit, but whose four
    blank squares 0, 3, 15 and 24 are each left with the single candidate
    9. *)
Definition clash_grid : grid :=
  list_ascii_of_string
    "042076531817325046635481027463718295289653174571249683756832419398164752124597368".

(** The hard puzzle's solution with the squares 1, 3, 10 and 12 blank. *)
Definition rectangle_grid : grid :=
  list_ascii_of_string
    "407069825602058947958724316825437169791586432346912758289643571573291684164875293".

(** The hard puzzle's solution with the four squares 1, 3, 10 and 12, which
    hold 1, 3, 3, 1, opened to the candidates 3 and 1, listed in the given
    order. *)
Definition rectangle_markup (s : cell) : Markup :=
  <[1 := s]> (<[3 := s]> (<[10 := s]> (<[12 := s]>
    ((λ c, [c]) <$> list_ascii_of_string
       "417369825632158947958724316825437169791586432346912758289643571573291684164875293")))).


(** ** Printing a board, and the test harness of main.py *)

Definition newline : ascii := "010"%char.

(** The text [display(m)] writes for a list [m]: the strings one after the
    other, a newline after every ninth, and a newline at the end. *)
Fixpoint display_from (i : nat) (m : Markup) : list ascii :=
  match m with
  | [] => [newline]
  | v :: m' =>
      v ++ (if (S i) mod 9 =? 0 then [newline] else [])
        ++ display_from (S i) m'
  end.

(** What the harness can end a grid with, beyond the solver's exceptions:
    [display(None)] raises [TypeError], a failed [assert] raises
    [AssertionError]. *)
Inductive harness_error : Type :=
| Solver (e : exn)
| TypeError
| AssertionError.

Inductive harness_result : Type :=
| Passed
| Failed (e : harness_error)
| Unfinished.

(** What the harness writes: the line ['No solution for grid', count], or a
    board. *)
Inductive event : Type :=
| NoSolution (count : nat)
| Board (text : list ascii).

(** [display(solution)], where [solution] may be [None]. *)
Definition display (solution : option Markup) : list event * harness_result :=
  match solution with
  | None => ([], Failed TypeError)
  | Some m => ([Board (display_from 0 m)], Passed)
  end.

(** The loop [for i, c in enumerate(grid): if grid[i] != '0': assert
    solution[i] == grid[i]], from square [i] on, [cs] being the rest of the
    grid. *)
Fixpoint check_from (solution : Markup) (i : nat) (cs : grid)
  : harness_result :=
  match cs with
  | [] => Passed
  | c :: cs' =>
      if Ascii.eqb c "0" then check_from solution (S i) cs'
      else
        match solution !! i with
        | None => Failed (Solver IndexError)
        | Some s =>
            if bool_decide (s = [c]) then check_from solution (S i) cs'
            else Failed AssertionError
        end
  end.

(** The body of the harness loop for one grid, [count] grids having been
    done before: the events written, the new [count] (incremented once the
    board has been displayed) and how the body ended. *)
Definition harness_step (aoe : list (list nat)) (join : cell -> cell)
    (depth fuel : nat) (count : nat) (g : grid)
  : list event * nat * harness_result :=
  match solve_grid aoe join depth fuel g with
  | Raise e => ([], count, Failed (Solver e))
  | Timeout => ([], count, Unfinished)
  | Val solution =>
      let said :=
        match solution with
        | None | Some [] => [NoSolution count]
        | Some _ => []
        end in
      match display solution, solution with
      | (shown, Passed), Some r => (said ++ shown, S count, check_from r 0 g)
      | (shown, stop), _ => (said ++ shown, count, stop)
      end
  end.


(** * Proofs *)

(** ** Strings *)

Lemma char_in_spec v s : char_in v s = true ↔ v ∈ s.
Proof.
  unfold char_in. rewrite existsb_exists. split.
  - intros (x & Hx & E). apply Ascii.eqb_eq in E. subst.
    by apply list_elem_of_In.
  - intros H. exists v. split; [by apply list_elem_of_In | apply Ascii.eqb_refl].
Qed.

Lemma char_in_false v s : char_in v s = false ↔ v ∉ s.
Proof.
  rewrite <- char_in_spec. destruct (char_in v s); split; congruence.
Qed.

Lemma elem_of_bfilter (f : ascii → bool) s c :
  c ∈ List.filter f s ↔ c ∈ s ∧ f c = true.
Proof. rewrite !list_elem_of_In. apply filter_In. Qed.

Lemma sublist_bfilter (f : ascii → bool) s : sublist (List.filter f s) s.
Proof.
  induction s as [|c s IH]; simpl; [constructor|].
  destruct (f c); by constructor.
Qed.

Lemma elem_of_replace v s c : c ∈ replace v s ↔ c ∈ s ∧ c ≠ v.
Proof.
  unfold replace. rewrite elem_of_bfilter, negb_true_iff, Ascii.eqb_neq.
  done.
Qed.

Lemma replace_sublist v s : sublist (replace v s) s.
Proof. apply sublist_bfilter. Qed.

Lemma replace_shorter v s : v ∈ s → length (replace v s) < length s.
Proof.
  unfold replace. induction s as [|c s IH]; intros H; [by inversion H|].
  simpl. destruct (Ascii.eqb c v) eqn:E; simpl.
  - pose proof (sublist_length _ _ (sublist_bfilter (λ c, negb (Ascii.eqb c v)) s)).
    lia.
  - apply Ascii.eqb_neq in E. apply elem_of_cons in H as [->|H]; [done|].
    specialize (IH H). lia.
Qed.

(** ** The order on stores *)

#[local] Instance cell_le_refl : Reflexive cell_le.
Proof. intros s. split; [reflexivity | done]. Qed.

#[local] Instance cell_le_trans : Transitive cell_le.
Proof.
  intros a b c [H1 N1] [H2 N2]. split; [by etrans | auto].
Qed.

#[local] Instance shrinks_refl : Reflexive shrinks.
Proof. intros m. apply Forall2_same_length_lookup. split; [done|].
  intros i x y ??. simplify_eq. reflexivity. Qed.

#[local] Instance shrinks_trans : Transitive shrinks.
Proof.
  intros a b c H1 H2.
  eapply Forall2_trans; [|exact H1|exact H2].
  intros x y z ??. by etrans.
Qed.

Lemma shrinks_length m m' : shrinks m m' → length m' = length m.
Proof. intros H. symmetry. by eapply Forall2_length. Qed.

Lemma shrinks_lookup m m' k s' :
  shrinks m m' → m' !! k = Some s' → ∃ s, m !! k = Some s ∧ cell_le s s'.
Proof. intros H E. by eapply Forall2_lookup_r. Qed.

Lemma shrinks_lookup_l m m' k s :
  shrinks m m' → m !! k = Some s → ∃ s', m' !! k = Some s' ∧ cell_le s s'.
Proof. intros H E. by eapply Forall2_lookup_l. Qed.

Lemma shrinks_insert m i s w :
  m !! i = Some s → cell_le s w → shrinks m (<[i := w]> m).
Proof.
  intros E L. apply Forall2_same_length_lookup. split.
  - by rewrite length_insert.
  - intros k x y Hx Hy. destruct (decide (i = k)) as [->|N].
    + rewrite list_lookup_insert_eq in Hy by (by eapply lookup_lt_Some).
      by simplify_eq.
    + rewrite list_lookup_insert_ne in Hy by done. simplify_eq. reflexivity.
Qed.

Lemma absent_shrinks c j m m' : absent c j m → shrinks m m' → absent c j m'.
Proof.
  intros A H s' E. destruct (shrinks_lookup _ _ _ _ H E) as (s & Es & L & _).
  intros Hin. eapply A; [done|]. by eapply elem_of_sublist.
Qed.

Lemma cell_le_single c s' : cell_le [c] s' → s' = [c].
Proof.
  intros [H N]. apply sublist_cons_r in H as [H | (l & -> & H)].
  - apply sublist_nil_r in H. subst. by destruct N.
  - apply sublist_nil_r in H. by subst.
Qed.

(** ** Running the monad *)

Lemma bind_val {A B} (c : M A) (k : A → M B) m m' b :
  bind c k m = (m', Val b) → ∃ m1 a, c m = (m1, Val a) ∧ k a m1 = (m', Val b).
Proof.
  unfold bind. destruct (c m) as [m1 [a|e|]]; intros H; try discriminate.
  by exists m1, a.
Qed.

Lemma getitem_val i m m' s :
  getitem i m = (m', Val s) → m' = m ∧ m !! i = Some s.
Proof. unfold getitem. destruct (m !! i); intros H; by simplify_eq. Qed.

Lemma setitem_val i w m m' u :
  setitem i w m = (m', Val u) → m' = <[i := w]> m ∧ i < length m.
Proof. unfold setitem. case_decide; intros ?; by simplify_eq. Qed.

Lemma truthy_val r m m' :
  truthy r m = (m', Val true) → m' = m ∧ r = RetM ∧ m ≠ [].
Proof.
  unfold truthy. destruct r, m; intros H; by simplify_eq.
Qed.

Lemma places_store v u m m' o : places v u m = (m', o) → m' = m.
Proof.
  revert m' o. induction u as [|j u IH]; simpl; intros m' o H.
  - unfold ret in H. by simplify_eq.
  - unfold bind, getitem in H. destruct (m !! j); [|by simplify_eq].
    destruct (places v u m) as [m1 [ps| |]] eqn:E;
      specialize (IH _ _ eq_refl); subst; unfold ret in H; by simplify_eq.
Qed.

Ltac bind_inv H :=
  let m1 := fresh "m" in
  let a := fresh "a" in
  let E := fresh "E" in
  let H' := fresh "H" in
  destruct (bind_val _ _ _ _ _ H) as (m1 & a & E & H');
  clear H; rename H' into H.

(** A call whose result is tested for truth. *)
Lemma checked_call {B} (c : M pyret) (k e : M B) m m' b :
  (r <~ c ;; t <~ truthy r ;; if t then k else e) m = (m', Val b) →
  (∃ m1, c m = (m1, Val RetM) ∧ k m1 = (m', Val b)) ∨
  (∃ m1 r, c m = (m1, Val r) ∧ e m1 = (m', Val b)).
Proof.
  unfold bind, truthy. destruct (c m) as [m1 [r|x|]]; try discriminate.
  destruct r; [destruct m1|]; eauto.
Qed.

(** [all(...)] came out true: every call returned the list, and whatever
    each call established and later calls keep holds at the end. *)
Lemma py_all_true {X} (R : relation Markup) (Q : X → Markup → Prop)
    (f : X → M pyret) (xs : list X) :
  Reflexive R → Transitive R →
  (∀ x m m', Q x m → R m m' → Q x m') →
  (∀ x m m', x ∈ xs → f x m = (m', Val RetM) → R m m' ∧ Q x m') →
  ∀ m m', py_all f xs m = (m', Val true) → R m m' ∧ ∀ x, x ∈ xs → Q x m'.
Proof.
  intros HR HT Hst. induction xs as [|x xs IH]; intros Hf m m' H.
  - unfold py_all, ret in H. simplify_eq. split; [reflexivity|].
    intros x Hx. by inversion Hx.
  - simpl in H. apply checked_call in H as [(m1 & E & H)|(m1 & r & _ & H)];
      [|by unfold ret in H].
    destruct (Hf x m m1 ltac:(left) E) as [R1 Q1].
    destruct (IH (λ y a b Hy, Hf y a b (list_elem_of_further _ _ _ Hy)) _ _ H)
      as [R2 Q2].
    split; [by etrans|].
    intros y [->|Hy]%elem_of_cons; [by eapply Hst | by apply Q2].
Qed.

Lemma unit_loop_ok (R : relation Markup) asg v us :
  Reflexive R → Transitive R →
  (∀ p m m', asg p v m = (m', Val RetM) → R m m') →
  ∀ m m', unit_loop asg v us m = (m', Val RetM) → R m m'.
Proof.
  intros HR HT Ha. induction us as [|u us IH]; intros m m' H; simpl in H.
  - unfold ret in H. simplify_eq. reflexivity.
  - bind_inv H. apply places_store in E as ->.
    destruct a as [|p [|q ps]]; [by unfold ret in H| |by apply IH].
    apply checked_call in H as [(m1 & E & H)|(m1 & r & _ & H)];
      [|by unfold ret in H].
    etrans; [by eapply Ha | by apply IH].
Qed.

(** ** What a successful propagation leaves behind *)

Section Propagation.

Variable aoe : list (list nat).

#[global] Instance keeps_refl : Reflexive (keeps aoe).
Proof. intros m. split; [reflexivity | done]. Qed.

#[global] Instance keeps_trans : Transitive (keeps aoe).
Proof. intros a b c [S1 C1] [S2 C2]. split; [by etrans | auto]. Qed.

Lemma clean_insert m i s w k :
  m !! i = Some s → cell_le s w → k ≠ i →
  clean aoe m k → clean aoe (<[i := w]> m) k.
Proof.
  intros E L N C c ps Ek Ea j Hj.
  rewrite list_lookup_insert_ne in Ek by done.
  eapply absent_shrinks; [by eapply C | by eapply shrinks_insert].
Qed.

Lemma assign_with_keeps (elim : nat → ascii → M pyret) :
  (∀ i v m m', elim i v m = (m', Val RetM) → keeps aoe m m' ∧ absent v i m') →
  ∀ i v m m', assign_with elim i v m = (m', Val RetM) →
    keeps aoe m m' ∧ ∀ s c, m' !! i = Some s → c ∈ s → c = v.
Proof.
  intros He i v m m' H. unfold assign_with in H.
  bind_inv H. apply getitem_val in E as [-> Es]. bind_inv H.
  destruct a0; [|by unfold ret in H]. unfold ret in H. simplify_eq.
  apply (py_all_true (keeps aoe) (λ w m, absent w i m)) in E as [K Q];
    [|apply _|apply _| |].
  - split; [done|]. intros s c Es' Hc.
    destruct (Ascii.ascii_dec c v) as [|N]; [done|]. exfalso.
    destruct (shrinks_lookup _ _ _ _ (proj1 K) Es') as (s0 & E0 & L & _).
    simplify_eq. eapply (Q c); [|done|done].
    apply elem_of_bfilter. split; [by eapply elem_of_sublist|].
    by apply negb_true_iff, Ascii.eqb_neq.
  - intros w ma mb A [S _]. by eapply absent_shrinks.
  - intros w ma mb _ Hw. by apply He.
Qed.

Lemma eliminate_keeps fuel :
  ∀ i v m m', eliminate aoe fuel i v m = (m', Val RetM) →
    keeps aoe m m' ∧ absent v i m'.
Proof.
  induction fuel as [|fuel IH]; intros i v m m' H; [discriminate|].
  simpl in H. bind_inv H. apply getitem_val in E as [-> Es].
  destruct (char_in v a) eqn:Hin; simpl in H.
  2:{ unfold ret in H. simplify_eq. split; [reflexivity|].
      intros s ?. simplify_eq. by apply char_in_false. }
  bind_inv H. apply setitem_val in E as [-> Hlt].
  assert (L : replace v a ≠ [] → cell_le a (replace v a)).
  { intros N. split; [apply replace_sublist | done]. }
  assert (Av : absent v i (<[i := replace v a]> m)).
  { intros s. rewrite list_lookup_insert_eq by done. intros ?. simplify_eq.
    rewrite elem_of_replace. tauto. }
  destruct (replace v a) as [|c w] eqn:Ew; [by unfold ret in H|].
  specialize (L ltac:(done)).
  bind_inv H. destruct a1; [|by unfold ret in H].
  bind_inv H. unfold units_at in E0.
  destruct (units !! i) as [us|]; [|discriminate]. simplify_eq.
  apply (unit_loop_ok (keeps aoe)) in H; [|apply _|apply _|].
  2:{ intros p ma mb Hp. exact (proj1 (assign_with_keeps _ IH _ _ _ _ Hp)). }
  assert (S1 : shrinks m (<[i := c :: w]> m)) by (by eapply shrinks_insert).
  destruct w as [|c' w].
  - bind_inv E. unfold aoe_at in E0.
    destruct (aoe !! i) as [ps|] eqn:Ea; [|discriminate]. simplify_eq.
    apply (py_all_true (keeps aoe) (λ j m, absent c j m)) in E as [K Q];
      [|apply _|apply _| |].
    + split; [split|].
      * etrans; [exact S1|]. etrans; [exact (proj1 K) | exact (proj1 H)].
      * intros k Ck. apply (proj2 H). destruct (decide (k = i)) as [->|N].
        -- intros d ps' Ed Ea' j Hj. simplify_eq.
           destruct (shrinks_lookup _ _ _ _ (proj1 K) Ed) as (s0 & E0 & L0).
           rewrite list_lookup_insert_eq in E0 by done. simplify_eq.
           apply cell_le_single in L0. simplify_eq. by apply Q.
        -- apply (proj2 K). by eapply clean_insert.
      * eapply absent_shrinks; [exact Av|].
        etrans; [exact (proj1 K) | exact (proj1 H)].
    + intros j ma mb A [S _]. by eapply absent_shrinks.
    + intros j ma mb _ Hj. by apply IH.
  - unfold ret in E. simplify_eq. split; [split|].
    + etrans; [exact S1 | exact (proj1 H)].
    + intros k Ck. apply (proj2 H). destruct (decide (k = i)) as [->|N].
      * intros d ps' Ed. rewrite list_lookup_insert_eq in Ed by done.
        discriminate.
      * by eapply clean_insert.
    + eapply absent_shrinks; [exact Av | exact (proj1 H)].
Qed.

Lemma assign_keeps fuel i v m m' :
  assign aoe fuel i v m = (m', Val RetM) →
  keeps aoe m m' ∧ ∀ s c, m' !! i = Some s → c ∈ s → c = v.
Proof.
  unfold assign. apply assign_with_keeps. intros ????. apply eliminate_keeps.
Qed.

End Propagation.

(** ** The search returns what propagation built *)

Lemma try_values_some body s n :
  try_values body s = Val (Some n) →
  n ≠ [] ∧ ∃ v, v ∈ s ∧ body v = Val (Some n).
Proof.
  induction s as [|v s IH]; simpl; [discriminate|].
  destruct (body v) as [[[|x n']|]|e|] eqn:E; try discriminate.
  - intros H. destruct (IH H) as (N & w & Hw & Ew).
    split; [done|]. exists w. split; [by right | done].
  - intros H. simplify_eq. split; [done|]. exists v. split; [by left | done].
  - intros H. destruct (IH H) as (N & w & Hw & Ew).
    split; [done|]. exists w. split; [by right | done].
Qed.

Lemma solve_some aoe depth fuel :
  ∀ m r, solve aoe depth fuel (Some m) = Val (Some r) →
    solved r = true ∧ r ≠ [] ∧ keeps aoe m r.
Proof.
  induction depth as [|depth IH]; intros m r H; [discriminate|].
  simpl in H. destruct m as [|s0 m0]; [discriminate|].
  set (m := s0 :: m0) in *.
  destruct (solved m) eqn:Hs.
  { simplify_eq. split; [done|]. split; [done | reflexivity]. }
  destruct (scan 9 None 0 m) as [i|]; [|discriminate].
  destruct (m !! i) as [s|]; [|discriminate].
  apply try_values_some in H as (N & v & _ & H).
  destruct (assign aoe fuel i v m) as [m' [[|]|e|]] eqn:Ea; try discriminate.
  - apply assign_keeps in Ea as [K _].
    destruct (IH _ _ H) as (S1 & _ & K1). split; [done|]. split; [done|].
    by etrans.
  - destruct depth; discriminate.
Qed.

Lemma solved_lookup r k s : solved r = true → r !! k = Some s → ∃ c, s = [c].
Proof.
  unfold solved. rewrite forallb_forall. intros H E.
  assert (Hs : (length s =? 1) = true).
  { apply H. apply list_elem_of_In. by eapply list_elem_of_lookup_2. }
  apply Nat.eqb_eq in Hs. destruct s as [|c [|]]; try discriminate. by exists c.
Qed.

(** ** The initial markup *)

Lemma markup_from_cells aoe join g ixs m :
  markup_from aoe join g ixs = Val m →
  Forall2 (λ i s, markup_cell aoe join g i = Val s) ixs m.
Proof.
  revert m. induction ixs as [|i ixs IH]; simpl; intros m H.
  - simplify_eq. constructor.
  - destruct (markup_cell aoe join g i) as [s| |] eqn:E; try discriminate.
    destruct (markup_from aoe join g ixs) as [m'| |]; try discriminate.
    simplify_eq. constructor; [done | by apply IH].
Qed.

Lemma markup_lookup aoe join g m i :
  markup aoe join g = Val m → i < 81 →
  ∃ s, m !! i = Some s ∧ markup_cell aoe join g i = Val s.
Proof.
  intros H Hi. apply markup_from_cells in H.
  assert (E : seq 0 81 !! i = Some i) by (by apply lookup_seq).
  destruct (Forall2_lookup_l _ _ _ _ _ H E) as (s & Es & Hs). eauto.
Qed.

Lemma markup_length aoe join g m : markup aoe join g = Val m → length m = 81.
Proof.
  intros H. apply markup_from_cells, Forall2_length in H.
  by rewrite length_seq in H.
Qed.

Lemma markup_fixed aoe join g m i c :
  markup aoe join g = Val m → i < 81 → g !! i = Some c → c ≠ "0"%char →
  m !! i = Some [c].
Proof.
  intros H Hi Eg Hc. destruct (markup_lookup _ _ _ _ _ H Hi) as (s & Es & Hs).
  unfold markup_cell in Hs. rewrite Eg in Hs.
  apply Ascii.eqb_neq in Hc. rewrite Hc in Hs. by simplify_eq.
Qed.

Lemma solve_grid_some aoe join depth fuel g r :
  solve_grid aoe join depth fuel g = Val (Some r) →
  ∃ m, markup aoe join g = Val m ∧ solved r = true ∧ r ≠ [] ∧ keeps aoe m r.
Proof.
  unfold solve_grid. destruct (markup aoe join g) as [m| |]; try discriminate.
  intros H. exists m. split; [done|]. by eapply solve_some.
Qed.

Lemma solve_grid_fixed aoe join depth fuel (g : grid) (r : Markup) i c :
  solve_grid aoe join depth fuel g = Val (Some r) →
  i < 81 → g !! i = Some c → c ≠ "0"%char →
  r !! i = Some [c].
Proof.
  intros H Hi Eg Hc. apply solve_grid_some in H as (m & Hm & _ & _ & S & _).
  pose proof (markup_fixed _ _ _ _ _ _ Hm Hi Eg Hc) as Em.
  destruct (shrinks_lookup_l _ _ _ _ S Em) as (s' & Es' & L).
  apply cell_le_single in L. by subst.
Qed.

(** ** The checks are sound *)

Lemma no_clashb_ok aoe m : no_clashb aoe m = true → no_clash aoe m.
Proof.
  unfold no_clashb. rewrite forallb_forall. intros H x y ps c Ex Hy Mx My.
  specialize (H x). rewrite Ex, Mx in H.
  assert (Hx : In x (seq 0 (length aoe))).
  { apply in_seq. apply lookup_lt_Some in Ex. lia. }
  specialize (H Hx). rewrite forallb_forall in H.
  specialize (H y ltac:(by apply list_elem_of_In)). rewrite My in H.
  by rewrite Ascii.eqb_refl in H.
Qed.

Lemma digits_onlyb_ok m : digits_onlyb m = true → digits_only m.
Proof.
  unfold digits_onlyb. rewrite forallb_forall. intros H.
  apply Forall_forall. intros s Hs c Hc.
  apply list_elem_of_In, H in Hs. rewrite forallb_forall in Hs.
  apply char_in_spec, Hs. by apply list_elem_of_In.
Qed.

Lemma aoe_table_eq : aoe_table = aoe_asc.
Proof. vm_compute. reflexivity. Qed.

Lemma aoe_table_total a : a < 81 → aoe_table !!! a = aoe_elems a.
Proof.
  intros Ha. apply list_lookup_total_correct. rewrite aoe_table_eq.
  unfold aoe_asc. by rewrite list_lookup_fmap, lookup_seq_lt.
Qed.

Lemma lists_aoe_asc : lists_aoe aoe_asc.
Proof.
  apply Forall2_same_length_lookup. split; [done|].
  intros i x y ??. by simplify_eq.
Qed.

Lemma lists_aoe_table : lists_aoe aoe_table.
Proof. rewrite aoe_table_eq. apply lists_aoe_asc. Qed.

Lemma candidates_okb_ok (m : Markup) :
  (length m =? 81) &&
  forallb (λ s : cell, negb (Nat.eqb (length s) 0) &&
                       forallb (λ c, char_in c fullset) s) m = true →
  candidates_ok m.
Proof.
  rewrite andb_true_iff, Nat.eqb_eq, forallb_forall. intros [Hl Hf].
  split; [done|]. apply Forall_forall. intros s Hs.
  apply list_elem_of_In, Hf in Hs.
  rewrite andb_true_iff, negb_true_iff, Nat.eqb_neq, forallb_forall in Hs.
  destruct Hs as [Hn Hc]. split; [by destruct s|].
  intros c Hin. apply char_in_spec, Hc. by apply list_elem_of_In.
Qed.

(** ** Claims about propagation *)

Lemma shrinks_subset m m' k s' :
  shrinks m m' → m' !! k = Some s' →
  ∃ s, m !! k = Some s ∧ ∀ c, c ∈ s' → c ∈ s.
Proof.
  intros H E. destruct (shrinks_lookup _ _ _ _ H E) as (s & Es & L & _).
  exists s. split; [done|]. intros c Hc. by eapply elem_of_sublist.
Qed.

Lemma shrinks_candidates_ok m m' :
  candidates_ok m → shrinks m m' → candidates_ok m'.
Proof.
  intros [Hl Hf] H. split; [by rewrite (shrinks_length _ _ H)|].
  apply Forall_lookup. intros k s' E.
  destruct (shrinks_lookup _ _ _ _ H E) as (s & Es & L & N).
  destruct (proj1 (Forall_lookup _ _) Hf _ _ Es) as [Ns Hs].
  split; [auto|]. intros c Hc. apply Hs. by eapply elem_of_sublist.
Qed.

(** C7: eliminating a value that is not among the candidates of square [i]
    returns the markup, unchanged. *)
Theorem eliminate_absent_noop aoe fuel i v (m : Markup) s :
  m !! i = Some s → v ∉ s →
  eliminate aoe (S fuel) i v m = (m, Val RetM).
Proof.
  intros E Hv. simpl. unfold bind, getitem. rewrite E.
  apply char_in_false in Hv. by rewrite Hv.
Qed.

Lemma eliminate_absent_noop_witness :
  eliminate aoe_table 1 2 "5" easy_markup = (easy_markup, Val RetM).
Proof.
  apply (eliminate_absent_noop aoe_table 0 2 "5" easy_markup ["3"%char]).
  - vm_compute. reflexivity.
  - vm_compute. intros H. inversion H; subst. inversion H2.
Defined.

(** C10: when [eliminate] or [assign] returns the markup, the markup has
    the length it had and every candidate string lists only characters it
    listed before the call. *)
Theorem propagation_shrinks aoe fuel i v (m m' : Markup) :
  eliminate aoe fuel i v m = (m', Val RetM) ∨
  assign aoe fuel i v m = (m', Val RetM) →
  length m' = length m ∧
  ∀ k s', m' !! k = Some s' → ∃ s, m !! k = Some s ∧ ∀ c, c ∈ s' → c ∈ s.
Proof.
  intros H. assert (S : shrinks m m').
  { destruct H as [H|H]; [apply eliminate_keeps in H | apply assign_keeps in H];
      apply H. }
  split; [by apply shrinks_length|]. intros k s' E. by eapply shrinks_subset.
Qed.

Lemma propagation_shrinks_witness :
  length (eliminate aoe_table 40 0 "5" easy_markup).1 = length easy_markup ∧
  ∀ k s', (eliminate aoe_table 40 0 "5" easy_markup).1 !! k = Some s' →
          ∃ s, easy_markup !! k = Some s ∧ ∀ c, c ∈ s' → c ∈ s.
Proof.
  apply (propagation_shrinks aoe_table 40 0 "5"). left.
  vm_compute. reflexivity.
Defined.

(** C8: from a markup of 81 non-empty candidate strings over the digits
    1-9, every markup returned by [eliminate], [assign] or [solve] is again
    one; and the call of [eliminate] that strikes out the last candidate of
    a square returns [None]. *)
Theorem candidates_stay_ok aoe (m : Markup) :
  candidates_ok m →
  (∀ fuel i v m', eliminate aoe fuel i v m = (m', Val RetM) → candidates_ok m') ∧
  (∀ fuel i v m', assign aoe fuel i v m = (m', Val RetM) → candidates_ok m') ∧
  (∀ depth fuel r, solve aoe depth fuel (Some m) = Val (Some r) →
                   candidates_ok r) ∧
  (∀ fuel i v s, m !! i = Some s → v ∈ s → replace v s = [] →
                 eliminate aoe (S fuel) i v m = (<[i := []]> m, Val RetNone)).
Proof.
  intros Hm. split; [|split; [|split]].
  - intros fuel i v m' H. apply eliminate_keeps in H as [[S _] _].
    by eapply shrinks_candidates_ok.
  - intros fuel i v m' H. apply assign_keeps in H as [[S _] _].
    by eapply shrinks_candidates_ok.
  - intros depth fuel r H. apply solve_some in H as (_ & _ & S & _).
    by eapply shrinks_candidates_ok.
  - intros fuel i v s E Hv Hr. simpl. unfold bind, getitem. rewrite E.
    apply char_in_spec in Hv. rewrite Hv. simpl. unfold setitem.
    rewrite decide_True by (by eapply lookup_lt_Some). by rewrite Hr.
Qed.

Lemma candidates_stay_ok_witness :
  (∀ fuel i v m', eliminate aoe_table fuel i v easy_markup = (m', Val RetM) →
                  candidates_ok m') ∧
  (∀ fuel i v m', assign aoe_table fuel i v easy_markup = (m', Val RetM) →
                  candidates_ok m') ∧
  (∀ depth fuel r, solve aoe_table depth fuel (Some easy_markup) = Val (Some r) →
                   candidates_ok r) ∧
  (∀ fuel i v s, easy_markup !! i = Some s → v ∈ s → replace v s = [] →
     eliminate aoe_table (S fuel) i v easy_markup
     = (<[i := []]> easy_markup, Val RetNone)).
Proof.
  apply (candidates_stay_ok aoe_table easy_markup).
  apply candidates_okb_ok. vm_compute. reflexivity.
Defined.

(** ** Claims about the search *)

(** C5: a square that holds a digit in the grid holds exactly that digit in
    any markup that [solve(markup(grid))] returns. *)
Theorem fixed_digits_kept aoe join depth fuel (g : grid) (r : Markup) i c :
  solve_grid aoe join depth fuel g = Val (Some r) →
  i < 81 → g !! i = Some c → c ≠ "0"%char →
  r !! i = Some [c].
Proof.
  apply solve_grid_fixed.
Qed.

Lemma fixed_digits_kept_witness :
  the_markup (solve_grid aoe_table id 3 40 easy_grid) !! 2 = Some ["3"%char].
Proof.
  apply (fixed_digits_kept aoe_table id 3 40 easy_grid _ 2 "3"%char).
  - vm_compute. reflexivity.
  - lia.
  - reflexivity.
  - discriminate.
Defined.

(** ** Units of a returned markup *)

Lemma units_geometry :
  Forall (λ u, length u = 9 ∧ NoDup u ∧
               Forall (λ a, a < 81 ∧
                            Forall (λ b, a = b ∨ b ∈ aoe_table !!! a) u) u)
         all_units.
Proof. apply (bool_decide_unpack _). vm_compute. exact I. Qed.

Lemma aoe_symmetric :
  Forall (λ a, Forall (λ b, b < 81 ∧ a ∈ aoe_table !!! b) (aoe_table !!! a))
         (seq 0 81).
Proof. apply (bool_decide_unpack _). vm_compute. exact I. Qed.

Lemma unit_shape u : u ∈ all_units → length u = 9 ∧ NoDup u.
Proof.
  intros Hu.
  by destruct (proj1 (Forall_forall _ _) units_geometry u Hu) as (? & ? & _).
Qed.

Lemma unit_member_lt u i : u ∈ all_units → i ∈ u → i < 81.
Proof.
  intros Hu Hi.
  destruct (proj1 (Forall_forall _ _) units_geometry u Hu) as (_ & _ & Hg).
  by destruct (proj1 (Forall_forall _ _) Hg i Hi).
Qed.

Lemma unit_peers u a b :
  u ∈ all_units → a ∈ u → b ∈ u → a ≠ b → b ∈ aoe_elems a.
Proof.
  intros Hu Ha Hb N.
  destruct (proj1 (Forall_forall _ _) units_geometry u Hu) as (_ & _ & Hg).
  destruct (proj1 (Forall_forall _ _) Hg a Ha) as [Ha81 Hp].
  destruct (proj1 (Forall_forall _ _) Hp b Hb) as [|Hab]; [done|].
  by rewrite <- aoe_table_total.
Qed.

Lemma aoe_elems_sym a b :
  a < 81 → b ∈ aoe_elems a → b < 81 ∧ a ∈ aoe_elems b.
Proof.
  intros Ha Hb. rewrite <- aoe_table_total in Hb by done.
  pose proof (proj1 (Forall_forall _ _) aoe_symmetric a) as Hs.
  specialize (Hs ltac:(apply elem_of_seq; lia)).
  destruct (proj1 (Forall_forall _ _) Hs b Hb) as [Hb81 Hab].
  split; [done|]. by rewrite <- aoe_table_total.
Qed.

Lemma lists_aoe_lookup aoe a :
  lists_aoe aoe → a < 81 → ∃ ps, aoe !! a = Some ps ∧ ps ≡ₚ aoe_elems a.
Proof.
  intros H Ha.
  assert (E : aoe_asc !! a = Some (aoe_elems a)).
  { unfold aoe_asc. rewrite list_lookup_fmap, lookup_seq_lt by done. done. }
  destruct (Forall2_lookup_r _ _ _ _ _ H E) as (ps & Ep & Hp). eauto.
Qed.

Lemma lists_aoe_peer aoe x y ps :
  lists_aoe aoe → aoe !! x = Some ps → y ∈ ps →
  ∃ qs, aoe !! y = Some qs ∧ x ∈ qs.
Proof.
  intros H Ex Hy.
  destruct (Forall2_lookup_l _ _ _ _ _ H Ex) as (es & Ee & Hp).
  unfold aoe_asc in Ee. rewrite list_lookup_fmap in Ee.
  destruct (seq 0 81 !! x) as [x'|] eqn:Es; [|discriminate].
  apply lookup_seq in Es as [-> Hx]. simpl in Ee. simplify_eq.
  rewrite Hp in Hy. simpl in Hx.
  destruct (aoe_elems_sym _ _ Hx Hy) as [Hy81 Hxy].
  destruct (lists_aoe_lookup _ _ H Hy81) as (qs & Eq & Hq).
  exists qs. split; [done|]. by rewrite Hq.
Qed.

Lemma keeps_no_clash aoe m r :
  lists_aoe aoe → keeps aoe m r → no_clash aoe m → no_clash aoe r.
Proof.
  intros Ha [S C] Hm x y ps c Ex Hy Rx Ry.
  destruct (shrinks_lookup _ _ _ _ S Rx) as (sx & Mx & Lx & _).
  destruct (shrinks_lookup _ _ _ _ S Ry) as (sy & My & Ly & _).
  destruct (lists_aoe_peer _ _ _ _ Ha Ex Hy) as (qs & Ey & Hx).
  assert (Vx : (∃ d, sx = [d]) ∨ clean aoe m x).
  { destruct sx as [|d [|]]; [right|left; eauto|right];
      intros ? ? E; rewrite Mx in E; discriminate. }
  assert (Vy : (∃ d, sy = [d]) ∨ clean aoe m y).
  { destruct sy as [|d [|]]; [right|left; eauto|right];
      intros ? ? E; rewrite My in E; discriminate. }
  destruct Vx as [[d ->]|Cx].
  2:{ eapply (C x Cx c ps Rx Ex y Hy); [done | by left]. }
  destruct Vy as [[e ->]|Cy].
  2:{ eapply (C y Cy c qs Ry Ey x Hx); [done | by left]. }
  assert (d = c) by (apply sublist_cons_r in Lx as [Lx|(?&?&?)];
    [by apply sublist_nil_r in Lx | by simplify_eq]).
  assert (e = c) by (apply sublist_cons_r in Ly as [Ly|(?&?&?)];
    [by apply sublist_nil_r in Ly | by simplify_eq]).
  subst. eapply Hm; eauto.
Qed.

Lemma shrinks_digits_only m r : digits_only m → shrinks m r → digits_only r.
Proof.
  intros Hd S. apply Forall_lookup. intros k s' E.
  destruct (shrinks_lookup _ _ _ _ S E) as (s & Es & L & _).
  intros c Hc. eapply (proj1 (Forall_lookup _ _) Hd); [done|].
  by eapply elem_of_sublist.
Qed.

Lemma digit_at_lookup (r : Markup) j d : r !! j = Some [d] → digit_at r j = d.
Proof. unfold digit_at. by intros ->. Qed.

Lemma fullset_NoDup : NoDup fullset.
Proof. apply (bool_decide_unpack _). vm_compute. exact I. Qed.

Lemma repeated_digit_incomplete (r : Markup) u i j c :
  i ∈ u → j ∈ u → i ≠ j → r !! i = Some [c] → r !! j = Some [c] →
  ¬ unit_complete r u.
Proof.
  intros Hi Hj N Ei Ej [_ Hp].
  assert (Hn : NoDup (digit_at r <$> u)) by (rewrite Hp; apply fullset_NoDup).
  apply list_elem_of_lookup in Hi as [p Hp1].
  apply list_elem_of_lookup in Hj as [q Hq1].
  assert (p = q); [|by simplify_eq].
  eapply (NoDup_lookup _ p q c Hn); rewrite list_lookup_fmap.
  - rewrite Hp1. simpl. by rewrite (digit_at_lookup _ _ _ Ei).
  - rewrite Hq1. simpl. by rewrite (digit_at_lookup _ _ _ Ej).
Qed.

(** A solved markup of 81 digit strings without clashes has complete
    units. *)
Lemma no_clash_units_complete aoe (r : Markup) u :
  lists_aoe aoe → length r = 81 → solved r = true → digits_only r →
  no_clash aoe r → u ∈ all_units → unit_complete r u.
Proof.
  intros Ha Hl Hs Hd Hc Hu.
  destruct (unit_shape u Hu) as [L9 ND].
  assert (Hdet : ∀ j, j ∈ u → ∃ d, r !! j = Some [d]).
  { intros j Hj. pose proof (unit_member_lt u j Hu Hj) as Hj81.
    destruct (lookup_lt_is_Some_2 r j ltac:(lia)) as [s Es].
    destruct (solved_lookup _ _ _ Hs Es) as [d ->]. eauto. }
  split; [by apply Forall_forall|].
  apply submseteq_length_Permutation.
  - apply NoDup_submseteq.
    + apply NoDup_fmap_2_strong; [|done]. intros a b Ha' Hb' E.
      destruct (decide (a = b)) as [|N]; [done|]. exfalso.
      pose proof (unit_member_lt u a Hu Ha') as Ha81.
      pose proof (unit_peers u a b Hu Ha' Hb' N) as Hab.
      destruct (lists_aoe_lookup _ _ Ha Ha81) as (ps & Ep & Pp).
      destruct (Hdet a Ha') as [da Ea]. destruct (Hdet b Hb') as [db Eb].
      rewrite (digit_at_lookup _ _ _ Ea), (digit_at_lookup _ _ _ Eb) in E.
      subst db. eapply (Hc a b ps da); eauto. by rewrite Pp.
    + intros x Hx. apply list_elem_of_fmap in Hx as (j & -> & Hj).
      destruct (Hdet j Hj) as [d Ed]. rewrite (digit_at_lookup _ _ _ Ed).
      eapply (proj1 (Forall_lookup _ _) Hd); [done | by left].
  - rewrite length_fmap, L9. done.
Qed.

(** C4 (as amended): when [solve(markup(grid))] returns a markup, and the
    initial markup is made of digits 1-9 and has no two squares of a common
    unit determined to the same digit, each of the 27 units of the result
    holds every digit 1-9 exactly once. *)
Theorem solution_units_complete aoe join depth fuel (g : grid) (m r : Markup) :
  lists_aoe aoe →
  markup aoe join g = Val m → digits_only m → no_clash aoe m →
  solve aoe depth fuel (Some m) = Val (Some r) →
  ∀ u, u ∈ all_units → unit_complete r u.
Proof.
  intros Ha Hm Hd Hc H u Hu.
  apply solve_some in H as (Hs & _ & K).
  eapply no_clash_units_complete; eauto.
  - rewrite (shrinks_length _ _ (proj1 K)). by eapply markup_length.
  - by eapply shrinks_digits_only; [|apply K].
  - by eapply keeps_no_clash.
Qed.

Lemma solution_units_complete_witness :
  unit_complete (the_markup (solve aoe_table 3 40 (Some easy_markup)))
                [0; 1; 2; 9; 10; 11; 18; 19; 20].
Proof.
  apply (solution_units_complete aoe_table id 3 40 easy_grid easy_markup).
  - apply lists_aoe_table.
  - vm_compute. reflexivity.
  - apply digits_onlyb_ok. vm_compute. reflexivity.
  - apply no_clashb_ok. vm_compute. reflexivity.
  - vm_compute. reflexivity.
  - apply (bool_decide_unpack _). vm_compute. exact I.
Defined.

(** C4, as stated, fails: a filled grid with two 8s in its first row comes
    back as it is. *)
Lemma spoiled_grid_returned :
  seq 0 9 ∈ all_units ∧
  ¬ unit_complete (the_markup (solve_grid aoe_table id 1 0 spoiled_grid)) (seq 0 9) ∧
  solve_grid aoe_table id 1 0 spoiled_grid
  = Val (Some ((λ c, [c]) <$> spoiled_grid)).
Proof.
  split; [apply (bool_decide_unpack _); vm_compute; exact I|].
  split; [|vm_compute; reflexivity].
  apply (repeated_digit_incomplete _ _ 0 1 "8"%char).
  - apply (bool_decide_unpack _). vm_compute. exact I.
  - apply (bool_decide_unpack _). vm_compute. exact I.
  - done.
  - vm_compute. reflexivity.
  - vm_compute. reflexivity.
Qed.

(** The same happens without any repeated digit in the grid: two blank
    squares of a row that [markup] leaves with the same single candidate
    are never compared. *)
Lemma clash_grid_returned :
  quick_check clash_grid = Val true ∧
  ¬ unit_complete (the_markup (solve_grid aoe_table id 1 0 clash_grid)) (seq 0 9) ∧
  solve_grid aoe_table id 1 0 clash_grid
  = Val (Some (<[0 := ["9"%char]]> (<[3 := ["9"%char]]> (<[15 := ["9"%char]]>
         (<[24 := ["9"%char]]> ((λ c, [c]) <$> clash_grid)))))).
Proof.
  split; [vm_compute; reflexivity|]. split; [|vm_compute; reflexivity].
  apply (repeated_digit_incomplete _ _ 0 3 "9"%char).
  - apply (bool_decide_unpack _). vm_compute. exact I.
  - apply (bool_decide_unpack _). vm_compute. exact I.
  - done.
  - vm_compute. reflexivity.
  - vm_compute. reflexivity.
Qed.

(** ** Termination *)

Lemma total_cons s (m : Markup) : total (s :: m) = length s + total m.
Proof. reflexivity. Qed.

Lemma undetermined_cons s (m : Markup) :
  undetermined (s :: m) = (if 1 <? length s then 1 else 0) + undetermined m.
Proof. reflexivity. Qed.

Lemma shrinks_total m m' : shrinks m m' → total m' ≤ total m.
Proof.
  induction 1 as [|s s' m m' [L _] _ IH]; [done|].
  rewrite !total_cons. apply sublist_length in L. lia.
Qed.

Lemma undetermined_head (s s' : cell) :
  length s' ≤ length s →
  (if 1 <? length s' then 1 else 0) ≤ (if 1 <? length s then 1 else 0).
Proof.
  intros L. destruct (1 <? length s') eqn:E1, (1 <? length s) eqn:E2; try lia.
  apply Nat.ltb_lt in E1. apply Nat.ltb_ge in E2. lia.
Qed.

Lemma shrinks_undetermined m m' :
  shrinks m m' → undetermined m' ≤ undetermined m.
Proof.
  induction 1 as [|s s' m m' [L _] _ IH]; [done|].
  rewrite !undetermined_cons.
  pose proof (undetermined_head _ _ (sublist_length _ _ L)). lia.
Qed.

Lemma shrinks_undetermined_lt m m' i s s' :
  shrinks m m' → m !! i = Some s → m' !! i = Some s' →
  1 < length s → length s' ≤ 1 → undetermined m' < undetermined m.
Proof.
  intros H. revert i.
  induction H as [|x x' m m' [L _] Hm IH]; intros i Es Es' H1 H2; [done|].
  rewrite !undetermined_cons. destruct i as [|i]; simpl in Es, Es'.
  - simplify_eq. pose proof (shrinks_undetermined _ _ Hm).
    apply Nat.ltb_lt in H1. rewrite H1.
    assert (E : (1 <? length s') = false) by (apply Nat.ltb_ge; lia).
    rewrite E. lia.
  - specialize (IH _ Es Es' H1 H2).
    pose proof (undetermined_head _ _ (sublist_length _ _ L)). lia.
Qed.

Lemma insert_total (m : Markup) i s w :
  m !! i = Some s → length w < length s → total (<[i := w]> m) < total m.
Proof.
  revert i. induction m as [|x m IH]; intros i E H; [done|].
  destruct i as [|i]; simpl in E |- *; rewrite !total_cons.
  - simplify_eq. lia.
  - specialize (IH _ E H). lia.
Qed.

Lemma shrinks_NoDup m m' : Forall NoDup m → shrinks m m' → Forall NoDup m'.
Proof.
  intros Hn S. apply Forall_lookup. intros k s' E.
  destruct (shrinks_lookup _ _ _ _ S E) as (s & Es & L & _).
  eapply sublist_NoDup; [|exact L]. by eapply Forall_lookup_1.
Qed.

Lemma NoDup_constant (s : cell) v :
  NoDup s → (∀ c, c ∈ s → c = v) → length s ≤ 1.
Proof.
  intros Hn Hc. destruct s as [|a [|b s]]; simpl; [lia|lia|exfalso].
  apply NoDup_cons in Hn as [Hn _]. apply Hn.
  rewrite (Hc a) by (by left). rewrite <- (Hc b) by (right; by left). by left.
Qed.

(** Loops do not run out of fuel if their calls do not. *)
Lemma py_all_no_timeout {X} (I : Markup → Prop) (f : X → M pyret) xs :
  (∀ x m, I m → (f x m).2 ≠ Timeout) →
  (∀ x m m', I m → f x m = (m', Val RetM) → I m') →
  ∀ m, I m → (py_all f xs m).2 ≠ Timeout.
Proof.
  intros Hf Hi. induction xs as [|x xs IH]; intros m Hm; simpl; [done|].
  unfold bind, truthy. specialize (Hf x m Hm).
  destruct (f x m) as [m1 [[|]| |]] eqn:E; simpl in *; try done.
  destruct m1; [done|]. apply IH. by eapply Hi.
Qed.

Lemma places_no_timeout v u m : (places v u m).2 ≠ Timeout.
Proof.
  induction u as [|j u IH]; simpl; [done|].
  unfold bind, getitem. destruct (m !! j); [|done].
  destruct (places v u m) as [m1 [ps| |]] eqn:E; simpl in *; done.
Qed.

Lemma unit_loop_no_timeout (I : Markup → Prop) asg v us :
  (∀ p m, I m → (asg p v m).2 ≠ Timeout) →
  (∀ p m m', I m → asg p v m = (m', Val RetM) → I m') →
  ∀ m, I m → (unit_loop asg v us m).2 ≠ Timeout.
Proof.
  intros Ha Hi. induction us as [|u us IH]; intros m Hm; simpl; [done|].
  unfold bind. pose proof (places_no_timeout v u m) as Hp.
  destruct (places v u m) as [m1 [ps| |]] eqn:E;
    pose proof (places_store _ _ _ _ _ E) as ->; simpl in *; try done.
  destruct ps as [|p [|q ps]]; [done| |by apply IH].
  unfold truthy. specialize (Ha p m Hm).
  destruct (asg p v m) as [m1 [[|]| |]] eqn:E1; simpl in *; try done.
  destruct m1; [done|]. apply IH. by eapply Hi.
Qed.

Lemma assign_with_no_timeout (I : Markup → Prop) elim i v :
  (∀ j w m, I m → (elim j w m).2 ≠ Timeout) →
  (∀ j w m m', I m → elim j w m = (m', Val RetM) → I m') →
  ∀ m, I m → (assign_with elim i v m).2 ≠ Timeout.
Proof.
  intros He Hi m Hm. unfold assign_with, bind, getitem.
  destruct (m !! i) as [s|]; [|done].
  pose proof (py_all_no_timeout I (λ w, elim i w)
                (List.filter (λ w, negb (Ascii.eqb w v)) s)
                (λ w, He i w) (λ w, Hi i w) m Hm) as Hp.
  destruct (py_all _ _ m) as [m1 [[|]| |]]; simpl in *; done.
Qed.

Lemma eliminate_no_timeout aoe fuel :
  ∀ i v m, total m < fuel → (eliminate aoe fuel i v m).2 ≠ Timeout.
Proof.
  induction fuel as [|fuel IH]; intros i v m Hf; [lia|].
  assert (Hk : ∀ j w m0 m', total m0 < fuel →
                 eliminate aoe fuel j w m0 = (m', Val RetM) → total m' < fuel).
  { intros j w m0 m' H0 E. apply eliminate_keeps in E as [[S _] _].
    apply shrinks_total in S. lia. }
  simpl. unfold bind at 1. unfold getitem.
  destruct (m !! i) as [s|] eqn:Es; [|done].
  destruct (char_in v s) eqn:Hin; simpl; [|done].
  unfold bind at 1. unfold setitem.
  rewrite decide_True by (by eapply lookup_lt_Some).
  assert (Ht : total (<[i := replace v s]> m) < fuel).
  { apply char_in_spec, (replace_shorter v s) in Hin.
    pose proof (insert_total m i s _ Es Hin). lia. }
  destruct (replace v s) as [|c w]; [done|].
  set (m1 := <[i := c :: w]> m) in *.
  assert (Hl : ∀ m2 (ok : outcome bool),
             (ok = Val true → total m2 < fuel) → ok ≠ Timeout →
             (match ok with
              | Val a => (if a then us <~ units_at i ;;
                            unit_loop (assign_with (eliminate aoe fuel)) v us
                          else ret RetNone) m2
              | Raise e => (m2, Raise e)
              | Timeout => (m2, Timeout)
              end).2 ≠ Timeout).
  { intros m2 [[|]|e|] H2 Hok; try done. specialize (H2 eq_refl).
    unfold bind, units_at. destruct (units !! i) as [us|]; [|done].
    apply (unit_loop_no_timeout (λ m, total m < fuel)); [| |done].
    - intros p m0 H0.
      by apply (assign_with_no_timeout (λ m, total m < fuel)).
    - intros p m0 m' H0 E.
      apply (assign_with_keeps aoe) in E as [[S _] _];
        [|exact (eliminate_keeps aoe fuel)].
      apply shrinks_total in S. lia. }
  unfold bind at 1. destruct w as [|c' w].
  - unfold bind at 1. unfold aoe_at. destruct (aoe !! i) as [ps|]; [|done].
    pose proof (py_all_no_timeout (λ m, total m < fuel)
                  (λ j, eliminate aoe fuel j c) ps
                  (λ j, IH j c) (λ j, Hk j c) m1 Ht) as Hp.
    destruct (py_all _ ps m1) as [m2 ok] eqn:Ep. simpl in Hp.
    apply Hl; [|done]. intros ->.
    apply (py_all_true shrinks (λ _ _, True)) in Ep as [S _];
      [|apply _|apply _|done|].
    + apply shrinks_total in S. lia.
    + intros j ma mb _ E. split; [|done].
      by apply eliminate_keeps in E as [[S _] _].
  - unfold ret at 1. by apply (Hl m1 (Val true)).
Qed.

Lemma assign_no_timeout aoe fuel i v m :
  total m < fuel → (assign aoe fuel i v m).2 ≠ Timeout.
Proof.
  intros H. apply (assign_with_no_timeout (λ m, total m < fuel)); [| |done].
  - intros j w m0. apply eliminate_no_timeout.
  - intros j w m0 m' H0 E. apply eliminate_keeps in E as [[S _] _].
    apply shrinks_total in S. lia.
Qed.

Lemma scan_some min_len min_i k (m : Markup) i :
  scan min_len min_i k m = Some i →
  min_i = Some i ∨ (k ≤ i ∧ ∃ s, m !! (i - k) = Some s ∧ 1 < length s).
Proof.
  revert min_len min_i k. induction m as [|s m IH]; intros ml mi k H; simpl in H.
  - by left.
  - destruct ((1 <? length s) && (length s <? ml)) eqn:C.
    + apply andb_true_iff in C as [C1 _]. apply Nat.ltb_lt in C1.
      destruct (length s =? 2).
      * simplify_eq. right. split; [lia|]. exists s.
        by rewrite Nat.sub_diag.
      * destruct (IH _ _ _ H) as [E|(Hk & s' & Es & Hs)].
        -- simplify_eq. right. split; [lia|]. exists s.
           by rewrite Nat.sub_diag.
        -- right. split; [lia|]. exists s'. split; [|done].
           by replace (i - k) with (S (i - S k)) by lia.
    + destruct (IH _ _ _ H) as [E|(Hk & s' & Es & Hs)]; [by left|].
      right. split; [lia|]. exists s'. split; [|done].
      by replace (i - k) with (S (i - S k)) by lia.
Qed.

Lemma try_values_no_timeout body s :
  (∀ v, v ∈ s → body v ≠ Timeout) → try_values body s ≠ Timeout.
Proof.
  induction s as [|v s IH]; intros H; simpl; [done|].
  pose proof (H v ltac:(left)) as Hv.
  assert (Hs : try_values body s ≠ Timeout).
  { apply IH. intros w Hw. apply H. by right. }
  destruct (body v) as [[[|]|]| |]; done.
Qed.

Lemma assign_determines aoe fuel i v (m m' : Markup) s :
  Forall NoDup m → m !! i = Some s → 1 < length s →
  assign aoe fuel i v m = (m', Val RetM) →
  Forall NoDup m' ∧ total m' ≤ total m ∧ undetermined m' < undetermined m.
Proof.
  intros Hn Es Hs E. apply assign_keeps in E as [[S _] Hv].
  split; [by eapply shrinks_NoDup|]. split; [by apply shrinks_total|].
  destruct (shrinks_lookup_l _ _ _ _ S Es) as (s' & Es' & _).
  eapply shrinks_undetermined_lt; eauto.
  apply (NoDup_constant s' v); [|intros c; by apply Hv].
  eapply Forall_lookup_1; [by eapply shrinks_NoDup | done].
Qed.

Lemma undetermined_pos (m : Markup) i s :
  m !! i = Some s → 1 < length s → 0 < undetermined m.
Proof.
  revert i. induction m as [|x m IH]; intros i E H; [done|].
  rewrite undetermined_cons. destruct i as [|i]; simpl in E.
  - simplify_eq. apply Nat.ltb_lt in H. rewrite H. lia.
  - specialize (IH _ E H). lia.
Qed.

Lemma solve_no_timeout aoe depth fuel :
  ∀ m, Forall NoDup m → undetermined m < depth → total m < fuel →
       solve aoe depth fuel (Some m) ≠ Timeout.
Proof.
  induction depth as [|depth IH]; intros m Hn Hd Hf; [lia|].
  simpl. destruct m as [|s0 m0]; [done|]. set (m := s0 :: m0) in *.
  destruct (solved m); [done|].
  destruct (scan 9 None 0 m) as [i|] eqn:Hsc; [|done].
  apply scan_some in Hsc as [|(_ & s & Es & Hs)]; [done|].
  rewrite Nat.sub_0_r in Es. rewrite Es.
  apply try_values_no_timeout. intros v _.
  pose proof (assign_no_timeout aoe fuel i v m Hf) as Ha.
  destruct (assign aoe fuel i v m) as [m' [[|]| |]] eqn:E; simpl in Ha; try done.
  - destruct (assign_determines _ _ _ _ _ _ _ Hn Es Hs E) as (Hn' & Ht & Hu).
    apply IH; [done|lia|lia].
  - pose proof (undetermined_pos _ _ _ Es Hs).
    destruct depth; [lia|]. done.
Qed.

Lemma undetermined_le_length (m : Markup) : undetermined m ≤ length m.
Proof.
  induction m as [|s m IH]; [done|]. rewrite undetermined_cons. simpl.
  destruct (1 <? length s); lia.
Qed.

Lemma total_le (m : Markup) :
  Forall (λ s : cell, length s ≤ 9) m → total m ≤ 9 * length m.
Proof.
  induction 1 as [|s m Hs _ IH]; [done|]. rewrite total_cons. simpl. lia.
Qed.





(** ** The scan that never binds [min_i] *)

Lemma scan_unbound (m : Markup) k :
  Forall (λ s : cell, length s ≤ 1 ∨ 9 ≤ length s) m → scan 9 None k m = None.
Proof.
  intros H. revert k. induction H as [|s m Hs _ IH]; intros k; simpl; [done|].
  assert (E : (1 <? length s) && (length s <? 9) = false).
  { apply andb_false_iff. destruct Hs; [left|right]; apply Nat.ltb_ge; lia. }
  by rewrite E.
Qed.

(** C2 (the code departs from it): [solve] raises [UnboundLocalError] on
    every unsolved markup in which no square has between 2 and 8
    candidates, because its scan only accepts lengths below [min_len = 9]. *)
Theorem solve_raises_unbound aoe depth fuel (m : Markup) :
  m ≠ [] → solved m = false →
  Forall (λ s : cell, length s ≤ 1 ∨ 9 ≤ length s) m →
  solve aoe (S depth) fuel (Some m) = Raise UnboundLocalError.
Proof.
  intros Hm Hs Hf. simpl. destruct m as [|s0 m0]; [done|].
  by rewrite Hs, scan_unbound.
Qed.

Lemma solve_raises_unbound_witness :
  solve aoe_table 1 0 (Some (replicate 81 fullset)) = Raise UnboundLocalError.
Proof.
  apply (solve_raises_unbound aoe_table 0 0 (replicate 81 fullset)).
  - discriminate.
  - reflexivity.
  - apply (bool_decide_unpack _). vm_compute. exact I.
Defined.

Lemma markup_from_total aoe join g ixs (P : cell → Prop) :
  (∀ i, i ∈ ixs → ∃ s, markup_cell aoe join g i = Val s ∧ P s) →
  ∃ m, markup_from aoe join g ixs = Val m ∧ Forall P m ∧ length m = length ixs.
Proof.
  induction ixs as [|i ixs IH]; intros H; simpl.
  - exists []. by repeat split.
  - destruct (H i ltac:(left)) as (s & -> & Hs).
    destruct IH as (m & -> & Hm & Hl).
    { intros j Hj. apply H. by right. }
    exists (s :: m). repeat split; [by constructor | simpl; lia].
Qed.

Lemma gather_blank ps :
  Forall (λ j, j < 81) ps →
  ∃ cs, gather blank_grid ps = Val cs ∧ Forall (λ c, c = "0"%char) cs.
Proof.
  induction 1 as [|j ps Hj _ (cs & E & Hc)]; simpl.
  - by exists [].
  - unfold blank_grid at 1. rewrite lookup_replicate_2 by done.
    rewrite E. exists ("0"%char :: cs). split; [done | by constructor].
Qed.

Lemma filter_blank cs :
  Forall (λ c, c = "0"%char) cs →
  List.filter (λ d, negb (char_in d cs)) fullset = fullset.
Proof.
  intros H.
  assert (E : ∀ d, d ≠ "0"%char → char_in d cs = false).
  { intros d Hd. apply char_in_false. intros Hin.
    by rewrite (proj1 (Forall_forall _ _) H d Hin) in Hd. }
  unfold fullset. simpl. by rewrite !E by discriminate.
Qed.

Lemma aoe_elems_lt i j : j ∈ aoe_elems i → j < 81.
Proof.
  unfold aoe_elems. rewrite list_elem_of_filter, elem_of_seq. lia.
Qed.

(** C1 (the code departs from it): on the grid of 81 blanks,
    [solve(markup(grid))] raises [UnboundLocalError] instead of returning a
    solution, whatever the iteration order of the sets. *)
Theorem blank_grid_raises aoe join depth fuel :
  lists_aoe aoe → (∀ s, join s ≡ₚ s) →
  solve_grid aoe join (S depth) fuel blank_grid = Raise UnboundLocalError.
Proof.
  intros Ha Hj. unfold solve_grid, markup.
  destruct (markup_from_total aoe join blank_grid (seq 0 81)
              (λ s, length s = 9)) as (m & -> & Hm & Hl).
  { intros i Hi. apply elem_of_seq in Hi as [_ Hi]. simpl in Hi.
    unfold markup_cell. unfold blank_grid at 1.
    rewrite lookup_replicate_2, Ascii.eqb_refl by done.
    destruct (lists_aoe_lookup _ _ Ha Hi) as (ps & -> & Hp).
    destruct (gather_blank ps) as (cs & -> & Hc).
    { apply Forall_forall. intros j Hj'. rewrite Hp in Hj'.
      by eapply aoe_elems_lt. }
    eexists. split; [done|]. rewrite (filter_blank _ Hc).
    by rewrite (Permutation_length (Hj fullset)). }
  rewrite length_seq in Hl. simpl.
  destruct m as [|s0 m0]; [done|].
  assert (Hs : solved (s0 :: m0) = false).
  { simpl. apply Forall_cons in Hm as [-> _]. done. }
  rewrite Hs, scan_unbound; [done|].
  eapply Forall_impl; [exact Hm|]. simpl. intros s ->. by right.
Qed.

Lemma blank_grid_raises_witness :
  solve_grid aoe_table id 1 0 blank_grid = Raise UnboundLocalError.
Proof.
  apply (blank_grid_raises aoe_table id 0 0).
  - apply lists_aoe_table.
  - reflexivity.
Defined.

(** ** Grids with a repeated digit *)

(** C3, as stated, fails: the grid of 81 fives repeats a digit in its first
    row, and [solve(markup(grid))] returns a markup for it. *)
Lemma duplicate_grid_returned :
  duplicate_in_unit fives_grid (seq 0 9) 0 1 "5" ∧
  solve_grid aoe_table id 1 0 fives_grid = Val (Some (replicate 81 ["5"%char])).
Proof.
  split; [|vm_compute; reflexivity].
  repeat split; try done.
  - apply (bool_decide_unpack _). vm_compute. exact I.
  - apply (bool_decide_unpack _). vm_compute. exact I.
  - apply (bool_decide_unpack _). vm_compute. exact I.
Qed.

(** ** The order in which candidate values are tried *)

Lemma solve_assigned_not_empty aoe depth fuel m i v :
  solve_assigned aoe depth fuel m i v ≠ Val (Some []).
Proof.
  unfold solve_assigned. intros H.
  destruct (assign aoe fuel i v m) as [m' [[|]| |]]; simpl in H; try done.
  - apply solve_some in H as (_ & N & _). done.
  - destruct depth; discriminate.
Qed.

Lemma try_values_first_non_fail body s :
  (∀ v, body v ≠ Val (Some [])) →
  try_values body s = first_non_fail (body <$> s).
Proof.
  intros Hb. unfold first_non_fail.
  induction s as [|v s IH]; simpl; [done|].
  specialize (Hb v). destruct (body v) as [[[|x n]|]| |]; simpl; done.
Qed.

Lemma try_values_ext f g s :
  (∀ v, f v = g v) → try_values f s = try_values g s.
Proof.
  intros H. induction s as [|v s IH]; simpl; [done|]. by rewrite H, IH.
Qed.

(** C6 (as amended): in the branch state [solve] tries the candidate values
    of the selected square in the order in which its string lists them,
    each on a fresh copy of the markup, and returns the first result that
    is not FAIL; this is increasing numeric order whenever the string is in
    increasing order. *)
Theorem solve_tries_in_stored_order aoe depth fuel (m : Markup) i s :
  m ≠ [] → solved m = false → scan 9 None 0 m = Some i → m !! i = Some s →
  solve aoe (S depth) fuel (Some m) = spec_branch aoe depth fuel m i s ∧
  (ascending s = s →
   solve aoe (S depth) fuel (Some m) = spec_branch aoe depth fuel m i (ascending s)).
Proof.
  intros Hm Hs Hsc Es.
  assert (E : solve aoe (S depth) fuel (Some m) = spec_branch aoe depth fuel m i s).
  { simpl. destruct m as [|s0 m0]; [done|]. rewrite Hs, Hsc, Es.
    unfold spec_branch.
    rewrite <- try_values_first_non_fail by apply solve_assigned_not_empty.
    apply try_values_ext. intros v. unfold solve_assigned.
    by destruct (assign aoe fuel i v (s0 :: m0)) as [m' [[|]| |]]. }
  split; [done|]. by intros ->.
Qed.

Lemma solve_tries_in_stored_order_witness :
  solve aoe_table 2 10 (Some (rectangle_markup ["1"; "3"]%char))
  = spec_branch aoe_table 1 10 (rectangle_markup ["1"; "3"]%char) 1 ["1"; "3"]%char ∧
  (ascending ["1"; "3"]%char = ["1"; "3"]%char →
   solve aoe_table 2 10 (Some (rectangle_markup ["1"; "3"]%char))
   = spec_branch aoe_table 1 10 (rectangle_markup ["1"; "3"]%char) 1
       (ascending ["1"; "3"]%char)).
Proof.
  apply (solve_tries_in_stored_order aoe_table 1 10
           (rectangle_markup ["1"; "3"]%char) 1 ["1"; "3"]%char).
  - discriminate.
  - vm_compute. reflexivity.
  - vm_compute. reflexivity.
  - vm_compute. reflexivity.
Defined.

(** C6, as stated, fails: where the selected square lists its candidates as
    "31" (as [markup] builds them when the sets come out in descending
    order), [solve] tries 3 first and returns the solution with 3 in that
    square, whereas trying the values in increasing order returns the one
    with 1. *)
Lemma increasing_order_not_followed :
  markup aoe_table (@rev ascii) rectangle_grid
  = Val (rectangle_markup ["3"; "1"]%char) ∧
  scan 9 None 0 (rectangle_markup ["3"; "1"]%char) = Some 1 ∧
  rectangle_markup ["3"; "1"]%char !! 1 = Some ["3"; "1"]%char ∧
  solve aoe_table 2 10 (Some (rectangle_markup ["3"; "1"]%char))
  ≠ spec_branch aoe_table 1 10 (rectangle_markup ["3"; "1"]%char) 1
      (ascending ["3"; "1"]%char).
Proof.
  split; [vm_compute; reflexivity|].
  split; [vm_compute; reflexivity|]. split; [vm_compute; reflexivity|].
  intros H. apply (f_equal (λ o, digit_at (the_markup o) 1)) in H.
  vm_compute in H. discriminate.
Qed.

(** * Further properties of the code *)

(** ** The topology tables *)

Lemma units_table_facts i :
  i < 81 →
  ∃ r c b,
    units !! i = Some [r; c; b] ∧
    rows !! (i / 9) = Some r ∧ cols !! (i mod 9) = Some c ∧
    boxes !! (3 * (i / 27) + (i mod 9) / 3) = Some b ∧
    i ∈ r ∧ i ∈ c ∧ i ∈ b ∧
    ∀ u, u ∈ all_units → i ∈ u → u ∈ [r; c; b].
Proof.
  intros Hi.
  assert (H : forallb (λ i,
    match units !! i with
    | Some [r; c; b] =>
        bool_decide (rows !! (i / 9) = Some r) &&
        bool_decide (cols !! (i mod 9) = Some c) &&
        bool_decide (boxes !! (3 * (i / 27) + (i mod 9) / 3) = Some b) &&
        bool_decide (i ∈ r) && bool_decide (i ∈ c) && bool_decide (i ∈ b) &&
        bool_decide (Forall (λ u, i ∈ u → u ∈ [r; c; b]) all_units)
    | _ => false
    end) (seq 0 81) = true) by (vm_compute; reflexivity).
  rewrite forallb_forall in H. specialize (H i ltac:(apply in_seq; lia)).
  destruct (units !! i) as [[|r [|c [|b [|]]]]|]; try done.
  rewrite !andb_true_iff, !bool_decide_eq_true in H.
  destruct H as ((((((? & ?) & ?) & ?) & ?) & ?) & Hall).
  exists r, c, b. repeat split; try done.
  intros u Hu. by apply (proj1 (Forall_forall _ _) Hall).
Qed.

Lemma listed_units_are_units i r c b :
  rows !! (i / 9) = Some r → cols !! (i mod 9) = Some c →
  boxes !! (3 * (i / 27) + (i mod 9) / 3) = Some b →
  ∀ u, u ∈ [r; c; b] → u ∈ all_units.
Proof.
  intros Hr Hc Hb u Hu. unfold all_units. rewrite !elem_of_app.
  apply elem_of_cons in Hu as [->|Hu]; [left; by eapply list_elem_of_lookup_2|].
  apply elem_of_cons in Hu as [->|Hu];
    [right; left; by eapply list_elem_of_lookup_2|].
  apply list_elem_of_singleton in Hu as ->.
  right; right; by eapply list_elem_of_lookup_2.
Qed.

(** X1: [units[i]] is, for each of the 81 squares, the row, the column and
    the box that contain it, and no other unit contains the square; past
    the last square the table has no entry. *)
Theorem units_of_square i :
  i < 81 →
  (∃ r c b,
     units !! i = Some [r; c; b] ∧
     r ∈ rows ∧ c ∈ cols ∧ b ∈ boxes ∧ i ∈ r ∧ i ∈ c ∧ i ∈ b ∧
     ∀ u, u ∈ all_units → i ∈ u → u = r ∨ u = c ∨ u = b) ∧
  units !! (i + 81) = None.
Proof.
  intros Hi. split.
  - destruct (units_table_facts i Hi)
      as (r & c & b & Eu & Er & Ec & Eb & Hr & Hc & Hb & Hall).
    exists r, c, b. split; [done|].
    split; [by eapply list_elem_of_lookup_2|].
    split; [by eapply list_elem_of_lookup_2|].
    split; [by eapply list_elem_of_lookup_2|].
    split; [done|]. split; [done|]. split; [done|].
    intros u Hu Hiu. specialize (Hall u Hu Hiu).
    rewrite !elem_of_cons, elem_of_nil in Hall. tauto.
  - apply lookup_ge_None. unfold units. rewrite length_map, length_seq. lia.
Qed.

Lemma units_of_square_witness :
  (∃ r c b,
     units !! 40 = Some [r; c; b] ∧
     r ∈ rows ∧ c ∈ cols ∧ b ∈ boxes ∧ 40 ∈ r ∧ 40 ∈ c ∧ 40 ∈ b ∧
     ∀ u, u ∈ all_units → 40 ∈ u → u = r ∨ u = c ∨ u = b) ∧
  units !! (40 + 81) = None.
Proof. apply (units_of_square 40). lia. Defined.

Lemma aoe_table_sizes :
  forallb (λ i, (length (aoe_table !!! i) =? 20) &&
                bool_decide (NoDup (aoe_table !!! i))) (seq 0 81) = true.
Proof. vm_compute. reflexivity. Qed.

(** X2: the set [aoe[i]] of a square holds exactly the 20 other squares
    that share a row, a column or a box with it; the relation is
    symmetric. *)
Theorem peers_of_square i :
  i < 81 →
  length (aoe_elems i) = 20 ∧ NoDup (aoe_elems i) ∧
  (∀ j, j ∈ aoe_elems i ↔ j ≠ i ∧ ∃ u, u ∈ all_units ∧ i ∈ u ∧ j ∈ u) ∧
  (∀ j, j ∈ aoe_elems i → j < 81 ∧ i ∈ aoe_elems j).
Proof.
  intros Hi.
  pose proof aoe_table_sizes as Hs. rewrite forallb_forall in Hs.
  specialize (Hs i ltac:(apply in_seq; lia)).
  rewrite andb_true_iff, Nat.eqb_eq, bool_decide_eq_true in Hs.
  rewrite aoe_table_total in Hs by done. destruct Hs as [Hl Hn].
  split; [done|]. split; [done|]. split.
  - intros j. split.
    + unfold aoe_elems. rewrite list_elem_of_filter.
      intros [[N He] _]. split; [done|].
      destruct (units_table_facts i Hi)
        as (r & c & b & Eu & Er & Ec & Eb & Hr & Hc & Hb & _).
      rewrite nth_lookup, Eu in He. simpl in He.
      apply Exists_exists in He as (u & Hu & Hj).
      exists u. split; [by eapply listed_units_are_units|]. split; [|done].
      rewrite !elem_of_cons, elem_of_nil in Hu.
      destruct Hu as [->|[->|[->|[]]]]; done.
    + intros (N & u & Hu & Hiu & Hju). by eapply unit_peers.
  - intros j Hj. by apply aoe_elems_sym.
Qed.

Lemma peers_of_square_witness :
  length (aoe_elems 40) = 20 ∧ NoDup (aoe_elems 40) ∧
  (∀ j, j ∈ aoe_elems 40 ↔ j ≠ 40 ∧ ∃ u, u ∈ all_units ∧ 40 ∈ u ∧ j ∈ u) ∧
  (∀ j, j ∈ aoe_elems 40 → j < 81 ∧ 40 ∈ aoe_elems j).
Proof. apply (peers_of_square 40). lia. Defined.

(** ** Building the markup: sizes and contents *)

Lemma gather_spec g js cs :
  gather g js = Val cs → Forall2 (λ j c, g !! j = Some c) js cs.
Proof.
  revert cs. induction js as [|j js IH]; simpl; intros cs H.
  - simplify_eq. constructor.
  - destruct (g !! j) as [c|] eqn:E; [|discriminate].
    destruct (gather g js) as [cs'| |]; try discriminate.
    simplify_eq. constructor; [done | by apply IH].
Qed.

Lemma gather_total (g : grid) js :
  Forall (λ j, j < length g) js → ∃ cs, gather g js = Val cs.
Proof.
  induction 1 as [|j js Hj _ [cs E]]; simpl; [by eexists|].
  destruct (lookup_lt_is_Some_2 g j Hj) as [c ->]. rewrite E. by eexists.
Qed.

Lemma gather_cases g js :
  gather g js = Raise IndexError ∨ ∃ cs, gather g js = Val cs.
Proof.
  induction js as [|j js IH]; simpl; [right; by eexists|].
  destruct (g !! j); [|by left].
  destruct IH as [->|[cs ->]]; [by left | right; by eexists].
Qed.

Lemma markup_cell_cases aoe join g i :
  markup_cell aoe join g i = Raise IndexError ∨
  ∃ s, markup_cell aoe join g i = Val s.
Proof.
  unfold markup_cell. destruct (g !! i) as [c|]; [|by left].
  destruct (Ascii.eqb c "0"); [|right; by eexists].
  destruct (aoe !! i) as [ps|]; [|by left].
  destruct (gather_cases g ps) as [->|[cs ->]]; [by left | right; by eexists].
Qed.

Lemma markup_from_cases aoe join g ixs :
  markup_from aoe join g ixs = Raise IndexError ∨
  ∃ m, markup_from aoe join g ixs = Val m.
Proof.
  induction ixs as [|i ixs IH]; simpl; [right; by eexists|].
  destruct (markup_cell_cases aoe join g i) as [->|[s ->]]; [by left|].
  destruct IH as [->|[m ->]]; [by left | right; by eexists].
Qed.

Lemma markup_by_length aoe join (g : grid) :
  lists_aoe aoe →
  (81 ≤ length g → ∃ m, markup aoe join g = Val m ∧ length m = 81) ∧
  (length g < 81 → markup aoe join g = Raise IndexError).
Proof.
  intros Ha. split.
  - intros Hg.
    destruct (markup_from_total aoe join g (seq 0 81) (λ _, True))
      as (m & Hm & _ & Hl).
    { intros i Hi. apply elem_of_seq in Hi as [_ Hi]. simpl in Hi.
      unfold markup_cell.
      destruct (lookup_lt_is_Some_2 g i ltac:(lia)) as [c ->].
      destruct (Ascii.eqb c "0"); [|by eexists].
      destruct (lists_aoe_lookup _ _ Ha Hi) as (ps & -> & Hp).
      destruct (gather_total g ps) as [cs ->]; [|by eexists].
      apply Forall_forall. intros j Hj. rewrite Hp in Hj.
      apply aoe_elems_lt in Hj. lia. }
    exists m. split; [done|]. by rewrite Hl, length_seq.
  - intros Hg. unfold markup.
    destruct (markup_from_cases aoe join g (seq 0 81)) as [E|[m E]]; [done|].
    exfalso. destruct (markup_lookup aoe join g m (length g) E Hg)
      as (s & _ & Hs).
    unfold markup_cell in Hs.
    by rewrite (proj2 (lookup_ge_None g (length g)) ltac:(lia)) in Hs.
Qed.

(** X3: [markup] reads the first 81 characters of the grid: on a grid of
    at least 81 characters it returns a list of 81 strings, on a shorter
    one it raises [IndexError]. *)
Theorem markup_size aoe join (g : grid) :
  lists_aoe aoe →
  (81 ≤ length g → ∃ m, markup aoe join g = Val m ∧ length m = 81) ∧
  (length g < 81 → markup aoe join g = Raise IndexError).
Proof. apply markup_by_length. Qed.

Lemma markup_size_witness :
  (81 ≤ length easy_grid →
   ∃ m, markup aoe_table id easy_grid = Val m ∧ length m = 81) ∧
  (length easy_grid < 81 → markup aoe_table id easy_grid = Raise IndexError).
Proof. apply (markup_size aoe_table id easy_grid). apply lists_aoe_table. Defined.

Lemma markup_cell_contents aoe join (g : grid) (m : Markup) i s :
  lists_aoe aoe → (∀ t, join t ≡ₚ t) →
  markup aoe join g = Val m → m !! i = Some s →
  NoDup s ∧
  (g !! i = Some "0"%char →
   ∀ d, d ∈ s ↔ d ∈ fullset ∧ ∀ j, j ∈ aoe_elems i → g !! j ≠ Some d) ∧
  (∀ c, g !! i = Some c → c ≠ "0"%char → s = [c]).
Proof.
  intros Ha Hj Hm Es.
  assert (Hi : i < 81).
  { apply lookup_lt_Some in Es. by rewrite (markup_length _ _ _ _ Hm) in Es. }
  destruct (markup_lookup _ _ _ _ _ Hm Hi) as (s' & Es' & Hc).
  rewrite Es in Es'. injection Es' as <-.
  unfold markup_cell in Hc. destruct (g !! i) as [c|] eqn:Eg; [|discriminate].
  destruct (Ascii.eqb c "0") eqn:E0.
  - apply Ascii.eqb_eq in E0 as ->.
    destruct (lists_aoe_lookup _ _ Ha Hi) as (ps & Ep & Hp). rewrite Ep in Hc.
    destruct (gather g ps) as [cs| |] eqn:Egs; try discriminate.
    apply gather_spec in Egs.
    assert (Hs : s = join (List.filter (λ d, negb (char_in d cs)) fullset))
      by congruence.
    clear Hc. rewrite Hs. clear Hs Es.
    split; [|split; [|by intros c ? ?; simplify_eq]].
    + rewrite Hj. eapply sublist_NoDup; [apply fullset_NoDup|].
      apply sublist_bfilter.
    + intros _ d. rewrite Hj, elem_of_bfilter, negb_true_iff, char_in_false.
      split; intros [Hd Hn]; (split; [done|]).
      * intros j Hjp Hgd. apply Hn. rewrite <- Hp in Hjp.
        apply list_elem_of_lookup in Hjp as [k Hk].
        destruct (Forall2_lookup_l _ _ _ _ _ Egs Hk) as (c & Hc & Hgc).
        rewrite Hgd in Hgc. injection Hgc as <-.
        by eapply list_elem_of_lookup_2.
      * intros Hin. apply list_elem_of_lookup in Hin as [k Hk].
        destruct (Forall2_lookup_r _ _ _ _ _ Egs Hk) as (j & Hjk & Hgj).
        eapply (Hn j); [|done]. rewrite <- Hp.
        by eapply list_elem_of_lookup_2.
  - simplify_eq. split; [apply NoDup_singleton|]. split.
    + intros ?. simplify_eq.
    + by intros c' ? ?; simplify_eq.
Qed.

(** X4: in the list [markup] builds, the string of a filled square is its
    digit, and the string of a blank square lists, without repetition,
    exactly the digits 1-9 that none of its 20 peers holds in the grid. *)
Theorem markup_candidates aoe join (g : grid) (m : Markup) i s :
  lists_aoe aoe → (∀ t, join t ≡ₚ t) →
  markup aoe join g = Val m → m !! i = Some s →
  NoDup s ∧
  (g !! i = Some "0"%char →
   ∀ d, d ∈ s ↔ d ∈ fullset ∧ ∀ j, j ∈ aoe_elems i → g !! j ≠ Some d) ∧
  (∀ c, g !! i = Some c → c ≠ "0"%char → s = [c]).
Proof. apply markup_cell_contents. Qed.

Lemma markup_candidates_witness :
  NoDup ["4"; "5"]%char ∧
  (easy_grid !! 0 = Some "0"%char →
   ∀ d, d ∈ ["4"; "5"]%char ↔
        d ∈ fullset ∧ ∀ j, j ∈ aoe_elems 0 → easy_grid !! j ≠ Some d) ∧
  (∀ c, easy_grid !! 0 = Some c → c ≠ "0"%char → ["4"; "5"]%char = [c]).
Proof.
  apply (markup_candidates aoe_table id easy_grid easy_markup 0).
  - apply lists_aoe_table.
  - reflexivity.
  - vm_compute. reflexivity.
  - vm_compute. reflexivity.
Defined.

Lemma markup_cells_small aoe join (g : grid) (m : Markup) :
  lists_aoe aoe → (∀ t, join t ≡ₚ t) → markup aoe join g = Val m →
  Forall NoDup m ∧ Forall (λ s : cell, length s ≤ 9) m.
Proof.
  intros Ha Hj Hm.
  assert (H : ∀ i s, m !! i = Some s → NoDup s ∧ length s ≤ 9).
  { intros i s Es.
    destruct (markup_cell_contents _ _ _ _ _ _ Ha Hj Hm Es) as (Hn & Hb & Hf).
    split; [done|].
    assert (Hi : i < 81).
    { apply lookup_lt_Some in Es.
      by rewrite (markup_length _ _ _ _ Hm) in Es. }
    destruct (markup_lookup _ _ _ _ _ Hm Hi) as (s' & _ & Hc).
    unfold markup_cell in Hc. destruct (g !! i) as [c|]; [|discriminate].
    destruct (decide (c = "0"%char)) as [->|N].
    - apply (submseteq_length s fullset). apply NoDup_submseteq; [done|].
      intros d Hd. by apply (Hb eq_refl).
    - rewrite (Hf c eq_refl N). simpl. lia. }
  split; apply Forall_lookup; intros i s Es; by destruct (H i s Es).
Qed.

(** X5: [solve(markup(grid))] always comes to an end, whatever the grid:
    82 nested calls of [solve] and 730 of [eliminate] are room enough for
    it to return a markup, return [None] or raise. *)
Theorem solve_grid_ends aoe join depth fuel (g : grid) :
  lists_aoe aoe → (∀ t, join t ≡ₚ t) → 81 < depth → 729 < fuel →
  solve_grid aoe join depth fuel g ≠ Timeout.
Proof.
  intros Ha Hj Hd Hf. unfold solve_grid.
  destruct (markup aoe join g) as [m| |] eqn:Hm; [|done|].
  - destruct (markup_cells_small _ _ _ _ Ha Hj Hm) as [Hn Hs].
    pose proof (markup_length _ _ _ _ Hm) as Hl.
    apply solve_no_timeout; [done| |].
    + pose proof (undetermined_le_length m). lia.
    + pose proof (total_le m Hs). lia.
  - unfold markup in Hm.
    by destruct (markup_from_cases aoe join g (seq 0 81)) as [E|[m E]];
      rewrite E in Hm.
Qed.

Lemma solve_grid_ends_witness :
  solve_grid aoe_table id 82 730 easy_grid ≠ Timeout.
Proof.
  apply (solve_grid_ends aoe_table id 82 730 easy_grid).
  - apply lists_aoe_table.
  - reflexivity.
  - lia.
  - lia.
Defined.

(** ** Propagation returns normally on a board of 81 squares *)

Lemma places_spec v u (m : Markup) :
  Forall (λ j, j < length m) u →
  ∃ ps, places v u m = (m, Val ps) ∧ sublist ps u ∧
        ∀ p, p ∈ ps ↔ p ∈ u ∧ ∃ s, m !! p = Some s ∧ v ∈ s.
Proof.
  induction 1 as [|j u Hj _ (ps & E & Hsub & Hps)]; simpl.
  - exists []. split; [done|]. split; [done|]. intros p. split.
    + intros Hp. by apply elem_of_nil in Hp.
    + intros [Hp _]. by apply elem_of_nil in Hp.
  - unfold bind, getitem. destruct (lookup_lt_is_Some_2 m j Hj) as [s Es].
    rewrite Es, E. unfold ret. destruct (char_in v s) eqn:Hv.
    + exists (j :: ps). split; [done|]. split; [by constructor|].
      intros p. rewrite !elem_of_cons, Hps. apply char_in_spec in Hv.
      split; [intros [->|[? ?]]; eauto | intros [[->|?] ?]; eauto].
    + exists ps. split; [done|]. split; [by constructor|].
      intros p. rewrite elem_of_cons, Hps. apply char_in_false in Hv.
      split; [intros [? ?]; eauto|].
      intros [[->|?] (s' & Es' & Hs')]; [|eauto]. by simplify_eq.
Qed.

Lemma py_all_returns {X} (I : Markup → Prop) (f : X → M pyret) xs :
  (∀ x, x ∈ xs → ∀ m, I m → ∃ m' r, f x m = (m', Val r)) →
  (∀ x m m', x ∈ xs → I m → f x m = (m', Val RetM) → I m') →
  ∀ m, I m → ∃ m' b, py_all f xs m = (m', Val b).
Proof.
  induction xs as [|x xs IH]; intros Hf Hi m Hm; simpl; [by eexists _, _|].
  destruct (Hf x ltac:(left) m Hm) as (m1 & r & E).
  unfold bind, truthy. rewrite E.
  destruct r; [destruct m1 eqn:E1|]; try by eexists _, _.
  rewrite <- E1 in *. apply IH.
  - intros y Hy. apply Hf. by right.
  - intros y ma mb Hy. apply Hi. by right.
  - eapply Hi; [by left|done|done].
Qed.

Lemma assign_with_returns (I : Markup → Prop) elim i v :
  (∀ m, I m → i < length m) →
  (∀ w m, I m → ∃ m' r, elim i w m = (m', Val r)) →
  (∀ w m m', I m → elim i w m = (m', Val RetM) → I m') →
  ∀ m, I m → ∃ m' r, assign_with elim i v m = (m', Val r).
Proof.
  intros Hl He Hi m Hm. unfold assign_with, bind, getitem.
  destruct (lookup_lt_is_Some_2 m i (Hl m Hm)) as [s ->].
  destruct (py_all_returns I (λ w, elim i w)
              (List.filter (λ w, negb (Ascii.eqb w v)) s)
              (λ w _, He w) (λ w ma mb _, Hi w ma mb) m Hm) as (m' & b & ->).
  destruct b; by eexists _, _.
Qed.

Lemma unit_loop_returns (I : Markup → Prop) asg v us :
  (∀ m, I m → length m = 81) →
  Forall (Forall (λ j, j < 81)) us →
  (∀ p, p < 81 → ∀ m, I m → ∃ m' r, asg p v m = (m', Val r)) →
  (∀ p m m', I m → asg p v m = (m', Val RetM) → I m') →
  ∀ m, I m → ∃ m' r, unit_loop asg v us m = (m', Val r).
Proof.
  intros Hl Hus Ha Hi. induction Hus as [|u us Hu _ IH]; intros m Hm; simpl.
  - by eexists _, _.
  - destruct (places_spec v u m) as (ps & E & Hsub & Hps).
    { eapply Forall_impl; [exact Hu|]. simpl. intros j. rewrite (Hl m Hm). lia. }
    unfold bind. rewrite E.
    destruct ps as [|p [|q ps]]; [by eexists _, _| |by apply IH].
    assert (Hp : p < 81).
    { apply (proj1 (Forall_forall _ _) Hu). apply Hps. by left. }
    destruct (Ha p Hp m Hm) as (m1 & r & E1). unfold truthy. rewrite E1.
    destruct r; [destruct m1 eqn:E2|]; try by eexists _, _.
    rewrite <- E2 in *. apply IH. by eapply Hi.
Qed.

Lemma units_entries_lt i us :
  units !! i = Some us → Forall (Forall (λ j, j < 81)) us.
Proof.
  intros E. assert (Hi : i < 81).
  { apply lookup_lt_Some in E. unfold units in E.
    by rewrite length_map, length_seq in E. }
  destruct (units_table_facts i Hi)
    as (r & c & b & Eu & Er & Ec & Eb & _ & _ & _ & _).
  rewrite Eu in E. injection E as <-.
  apply Forall_forall. intros u Hu. apply Forall_forall. intros j Hj.
  eapply unit_member_lt; [|exact Hj]. by eapply listed_units_are_units.
Qed.

Lemma eliminate_returns aoe fuel :
  lists_aoe aoe →
  ∀ i v (m : Markup), i < 81 → length m = 81 → total m < fuel →
    ∃ m' r, eliminate aoe fuel i v m = (m', Val r).
Proof.
  intros Ha. induction fuel as [|fuel IH]; intros i v m Hi Hl Hf; [lia|].
  set (I := λ m : Markup, length m = 81 ∧ total m < fuel).
  assert (Hk : ∀ j w m0 m', I m0 →
             eliminate aoe fuel j w m0 = (m', Val RetM) → I m').
  { intros j w m0 m' [H1 H2] E. apply eliminate_keeps in E as [[S _] _].
    split; [by rewrite (shrinks_length _ _ S)|].
    apply shrinks_total in S. lia. }
  assert (Hak : ∀ p w m0 m', I m0 →
             assign_with (eliminate aoe fuel) p w m0 = (m', Val RetM) → I m').
  { intros p w m0 m' [H1 H2] E.
    apply (assign_with_keeps aoe) in E as [[S _] _];
      [|exact (eliminate_keeps aoe fuel)].
    split; [by rewrite (shrinks_length _ _ S)|].
    apply shrinks_total in S. lia. }
  simpl. unfold bind at 1. unfold getitem.
  destruct (lookup_lt_is_Some_2 m i ltac:(lia)) as [s Es]. rewrite Es.
  destruct (char_in v s) eqn:Hin; simpl; [|by eexists _, _].
  unfold bind at 1. unfold setitem. rewrite decide_True by lia.
  assert (Ht : I (<[i := replace v s]> m)).
  { split; [by rewrite length_insert|].
    apply char_in_spec, (replace_shorter v s) in Hin.
    pose proof (insert_total m i s _ Es Hin). lia. }
  destruct (replace v s) as [|c w]; [by eexists _, _|].
  set (m1 := <[i := c :: w]> m) in *.
  assert (Hl2 : ∀ m2, I m2 →
    ∃ m' r, (us <~ units_at i ;;
             unit_loop (assign_with (eliminate aoe fuel)) v us) m2
            = (m', Val r)).
  { intros m2 H2. unfold bind, units_at.
    destruct (units_table_facts i Hi) as (r & c0 & b & Eu & _).
    rewrite Eu.
    apply (unit_loop_returns I);
      [by intros ? [? ?]| | |intros p ma mb; apply Hak|done].
    - by eapply units_entries_lt.
    - intros p Hp m0 H0.
      apply (assign_with_returns I);
        [intros ? [-> _]; lia| |intros w' ma mb; apply Hk|done].
      intros w' m3 [H3 H4]. by apply IH. }
  unfold bind at 1. destruct w as [|c' w].
  - unfold bind at 1. unfold aoe_at.
    destruct (lists_aoe_lookup _ _ Ha Hi) as (ps & -> & Hp).
    destruct (py_all_returns I (λ j, eliminate aoe fuel j c) ps)
      with (m := m1) as (m2 & b & E); [| |done|].
    + intros j Hj m0 [H1 H2]. apply IH; [|done|done].
      rewrite Hp in Hj. by eapply aoe_elems_lt.
    + intros j ma mb _. apply Hk.
    + rewrite E. destruct b; [|by eexists _, _]. apply Hl2.
      apply (py_all_true (λ a b, I a → I b) (λ _ _, True)) in E as [S _];
        [by apply S|by intros ?|by intros ??? H1 H2 ?; apply H2, H1|done|].
      intros j ma mb _ Ej. split; [|done]. intros Hma. by eapply Hk.
  - unfold ret at 1. by apply Hl2.
Qed.

Lemma assign_returns aoe fuel i v (m : Markup) :
  lists_aoe aoe → i < 81 → length m = 81 → total m < fuel →
  ∃ m' r, assign aoe fuel i v m = (m', Val r).
Proof.
  intros Ha Hi Hl Hf.
  apply (assign_with_returns (λ m : Markup, length m = 81 ∧ total m < fuel));
    [intros ? [-> _]; lia| | |done].
  - intros w m0 [H1 H2]. by apply eliminate_returns.
  - intros w m0 m' [H1 H2] E. apply eliminate_keeps in E as [[S _] _].
    split; [by rewrite (shrinks_length _ _ S)|].
    apply shrinks_total in S. lia.
Qed.

(** X6: on a list of 81 strings and a square below 81, [eliminate] and
    [assign] never raise: given room for one nested call per candidate
    character they return the list or [None]. *)
Theorem propagation_returns aoe fuel i v (m : Markup) :
  lists_aoe aoe → i < 81 → length m = 81 → total m < fuel →
  (∃ m' r, eliminate aoe fuel i v m = (m', Val r)) ∧
  (∃ m' r, assign aoe fuel i v m = (m', Val r)).
Proof.
  intros Ha Hi Hl Hf. split; [by apply eliminate_returns|].
  by apply assign_returns.
Qed.

Lemma propagation_returns_witness :
  (∃ m' r, eliminate aoe_table 200 0 "5" easy_markup = (m', Val r)) ∧
  (∃ m' r, assign aoe_table 200 0 "5" easy_markup = (m', Val r)).
Proof.
  apply (propagation_returns aoe_table 200 0 "5" easy_markup).
  - apply lists_aoe_table.
  - lia.
  - vm_compute. reflexivity.
  - vm_compute. lia.
Defined.

Lemma try_values_cases body s :
  try_values body s = Val None ∨ ∃ v, v ∈ s ∧ try_values body s = body v.
Proof.
  induction s as [|v s IH]; simpl; [by left|].
  destruct (body v) as [[[|x n]|]| |] eqn:E;
    try (right; exists v; split; [by left | by rewrite E]);
    (destruct IH as [->|(w & Hw & ->)];
     [by left | right; exists w; split; [by right | done]]).
Qed.

Lemma solve_no_index_error aoe depth fuel :
  lists_aoe aoe →
  ∀ m, Forall NoDup m → length m = 81 →
       undetermined m < depth → total m < fuel →
       (∃ r, solve aoe depth fuel (Some m) = Val r) ∨
       solve aoe depth fuel (Some m) = Raise UnboundLocalError.
Proof.
  intros Ha. induction depth as [|depth IH]; intros m Hn Hl Hd Hf; [lia|].
  simpl. destruct m as [|s0 m0]; [left; by eexists|]. set (m := s0 :: m0) in *.
  destruct (solved m); [left; by eexists|].
  destruct (scan 9 None 0 m) as [i|] eqn:Hsc; [|by right].
  apply scan_some in Hsc as [|(_ & s & Es & Hs)]; [done|].
  rewrite Nat.sub_0_r in Es. rewrite Es.
  assert (Hi : i < 81) by (apply lookup_lt_Some in Es; lia).
  match goal with |- context [try_values ?b s] =>
    destruct (try_values_cases b s) as [->|(v & _ & ->)] end;
    [left; by eexists|].
  destruct (assign_returns aoe fuel i v m Ha Hi Hl Hf) as (m' & r & E).
  rewrite E. destruct r.
  - destruct (assign_determines _ _ _ _ _ _ _ Hn Es Hs E) as (Hn' & Ht & Hu).
    apply assign_keeps in E as [[S _] _].
    apply IH; [done| |lia|lia]. by rewrite (shrinks_length _ _ S).
  - pose proof (undetermined_pos _ _ _ Es Hs).
    destruct depth; [lia|]. left. by eexists.
Qed.

Lemma solve_no_index_error_grid aoe join depth fuel (g : grid) :
  lists_aoe aoe → (∀ t, join t ≡ₚ t) → 81 ≤ length g →
  81 < depth → 729 < fuel →
  (∃ r, solve_grid aoe join depth fuel g = Val r) ∨
  solve_grid aoe join depth fuel g = Raise UnboundLocalError.
Proof.
  intros Ha Hj Hg Hd Hf. unfold solve_grid.
  destruct (proj1 (markup_by_length aoe join g Ha) Hg) as (m & Hm & Hl).
  rewrite Hm. destruct (markup_cells_small _ _ _ _ Ha Hj Hm) as [Hn Hs].
  apply solve_no_index_error; [done|done|done| |].
  - pose proof (undetermined_le_length m). lia.
  - pose proof (total_le m Hs). lia.
Qed.

(** X7: on a grid of at least 81 characters [solve(markup(grid))] returns a
    markup or [None], or raises [UnboundLocalError]; it never raises
    [IndexError]. *)
Theorem solve_grid_outcomes aoe join depth fuel (g : grid) :
  lists_aoe aoe → (∀ t, join t ≡ₚ t) → 81 ≤ length g →
  81 < depth → 729 < fuel →
  (∃ r, solve_grid aoe join depth fuel g = Val r) ∨
  solve_grid aoe join depth fuel g = Raise UnboundLocalError.
Proof. apply solve_no_index_error_grid. Qed.

Lemma solve_grid_outcomes_witness :
  (∃ r, solve_grid aoe_table id 82 730 easy_grid = Val r) ∨
  solve_grid aoe_table id 82 730 easy_grid = Raise UnboundLocalError.
Proof.
  apply (solve_grid_outcomes aoe_table id 82 730 easy_grid).
  - apply lists_aoe_table.
  - reflexivity.
  - vm_compute. lia.
  - lia.
  - lia.
Defined.

(** ** What the calls leave behind *)

(** X8: a markup that [solve] returns has the length of the input, holds in
    every square exactly one character, which was a candidate of that
    square in the input, and is returned unchanged when solved again. *)
Theorem solve_result aoe depth fuel (m r : Markup) :
  solve aoe depth fuel (Some m) = Val (Some r) →
  length r = length m ∧
  (∀ k s', r !! k = Some s' →
           ∃ c s, s' = [c] ∧ m !! k = Some s ∧ c ∈ s) ∧
  (∀ d f, solve aoe (S d) f (Some r) = Val (Some r)).
Proof.
  intros H. apply solve_some in H as (Hs & N & S & _).
  split; [by apply shrinks_length|]. split.
  - intros k s' E. destruct (solved_lookup _ _ _ Hs E) as [c ->].
    destruct (shrinks_subset _ _ _ _ S E) as (s & Es & Hsub).
    exists c, s. split; [done|]. split; [done|]. apply Hsub. by left.
  - intros d f. simpl. destruct r as [|s0 r0]; [done|]. by rewrite Hs.
Qed.

Lemma solve_result_witness :
  length (the_markup (solve aoe_table 3 40 (Some easy_markup)))
  = length easy_markup ∧
  (∀ k s', the_markup (solve aoe_table 3 40 (Some easy_markup)) !! k = Some s' →
           ∃ c s, s' = [c] ∧ easy_markup !! k = Some s ∧ c ∈ s) ∧
  (∀ d f, solve aoe_table (S d) f
            (Some (the_markup (solve aoe_table 3 40 (Some easy_markup))))
          = Val (Some (the_markup (solve aoe_table 3 40 (Some easy_markup))))).
Proof.
  apply (solve_result aoe_table 3 40 easy_markup).
  vm_compute. reflexivity.
Defined.

Lemma keeps_new_single aoe (m m' : Markup) k c ps j :
  keeps aoe m m' → m' !! k = Some [c] → m !! k ≠ Some [c] →
  aoe !! k = Some ps → j ∈ ps → absent c j m'.
Proof.
  intros [S C] E' N Ea Hj. eapply (C k); eauto.
  intros c1 ps1 E1 _. exfalso.
  destruct (shrinks_lookup_l _ _ _ _ S E1) as (s' & Es' & L).
  apply cell_le_single in L. by simplify_eq.
Qed.

(** X9: when [eliminate] returns the list, the value is gone from the
    square, and every square that the call brought down to a single value
    has that value struck from all the squares of its [aoe] set. *)
Theorem eliminate_result aoe fuel i v (m m' : Markup) :
  eliminate aoe fuel i v m = (m', Val RetM) →
  absent v i m' ∧
  ∀ k c ps j, m' !! k = Some [c] → m !! k ≠ Some [c] →
              aoe !! k = Some ps → j ∈ ps → absent c j m'.
Proof.
  intros H. apply eliminate_keeps in H as [K A]. split; [done|].
  intros k c ps j. by apply keeps_new_single.
Qed.

Lemma eliminate_result_witness :
  absent "5" 0 (eliminate aoe_table 40 0 "5" easy_markup).1 ∧
  ∀ k c ps j,
    (eliminate aoe_table 40 0 "5" easy_markup).1 !! k = Some [c] →
    easy_markup !! k ≠ Some [c] →
    aoe_table !! k = Some ps → j ∈ ps →
    absent c j (eliminate aoe_table 40 0 "5" easy_markup).1.
Proof.
  apply (eliminate_result aoe_table 40 0 "5" easy_markup).
  vm_compute. reflexivity.
Defined.

(** X10: [assign] returns the list only for a value that was a candidate of
    the square, and then leaves the square with that value alone (the
    square's string being non-empty and without repetition). *)
Theorem assign_result aoe fuel i v (m m' : Markup) s :
  m !! i = Some s → s ≠ [] → NoDup s →
  assign aoe fuel i v m = (m', Val RetM) →
  v ∈ s ∧ m' !! i = Some [v].
Proof.
  intros Es N Hn H. apply assign_keeps in H as [[S _] Hv].
  destruct (shrinks_lookup_l _ _ _ _ S Es) as (s' & Es' & L & N').
  specialize (N' N). specialize (Hv s').
  assert (Hn' : NoDup s') by (by eapply sublist_NoDup).
  pose proof (NoDup_constant s' v Hn' (λ c, Hv c Es')) as Hlen.
  destruct s' as [|c [|]]; [done| |simpl in Hlen; lia].
  assert (c = v) as -> by (apply Hv; [done | by left]).
  split; [|done]. eapply elem_of_sublist; [|exact L]. by left.
Qed.

Lemma assign_result_witness :
  "4"%char ∈ ["4"; "5"]%char ∧
  (assign aoe_table 40 0 "4" easy_markup).1 !! 0 = Some ["4"%char].
Proof.
  apply (assign_result aoe_table 40 0 "4" easy_markup).
  - vm_compute. reflexivity.
  - discriminate.
  - apply (bool_decide_unpack _). vm_compute. exact I.
  - vm_compute. reflexivity.
Defined.

(** ** A value never loses its last place in a unit *)

#[local] Instance holds_places_refl : Reflexive holds_places.
Proof. by intros m u v _ H. Qed.

#[local] Instance holds_places_trans : Transitive holds_places.
Proof. intros a b c H1 H2 u v Hu H. by apply H2, H1. Qed.

Lemma has_placeb_ok m u v : has_placeb m u v = true → has_place m u v.
Proof.
  unfold has_placeb. rewrite existsb_exists. intros (j & Hj & H).
  destruct (m !! j) as [s|] eqn:E; [|discriminate].
  exists j, s. split; [by apply list_elem_of_In|]. split; [done|].
  by apply char_in_spec.
Qed.

Lemma places_val v u m m' ps :
  places v u m = (m', Val ps) →
  ∀ p, p ∈ ps → p ∈ u ∧ ∃ s, m !! p = Some s ∧ v ∈ s.
Proof.
  revert m' ps. induction u as [|j u IH]; simpl; intros m' ps H p Hp.
  - unfold ret in H. simplify_eq. by apply elem_of_nil in Hp.
  - bind_inv H. apply getitem_val in E as [-> Es]. bind_inv H.
    pose proof (places_store _ _ _ _ _ E) as ->.
    unfold ret in H. simplify_eq.
    destruct (char_in v a) eqn:Hv.
    + apply elem_of_cons in Hp as [->|Hp].
      * split; [by left|]. exists a. split; [done|]. by apply char_in_spec.
      * destruct (IH _ _ E p Hp) as [Hu Hs]. split; [by right | done].
    + destruct (IH _ _ E p Hp) as [Hu Hs]. split; [by right | done].
Qed.

Lemma unit_loop_places asg v us :
  (∀ p m m', asg p v m = (m', Val RetM) → holds_places m m') →
  Forall (λ u, u ∈ all_units) us →
  ∀ m m', unit_loop asg v us m = (m', Val RetM) →
    holds_places m m' ∧ ∀ u, u ∈ us → has_place m' u v.
Proof.
  intros Ha. induction 1 as [|u us Hu _ IH]; intros m m' H; simpl in H.
  - unfold ret in H. simplify_eq. split; [reflexivity|].
    intros u Hu. by apply elem_of_nil in Hu.
  - bind_inv H. pose proof (places_store _ _ _ _ _ E) as ->.
    pose proof (places_val _ _ _ _ _ E) as Hps.
    destruct a as [|p [|q ps]]; [by unfold ret in H| |].
    + apply checked_call in H as [(m1 & E1 & H)|(m1 & r & _ & H)];
        [|by unfold ret in H].
      pose proof (Ha _ _ _ E1) as K1. destruct (IH _ _ H) as [K2 Q].
      split; [by etrans|].
      intros u' [->|Hu']%elem_of_cons; [|by apply Q].
      apply K2, K1; [done|done|].
      destruct (Hps p ltac:(left)) as (Hp & s & Es & Hv). by exists p, s.
    + destruct (IH _ _ H) as [K2 Q]. split; [done|].
      intros u' [->|Hu']%elem_of_cons; [|by apply Q].
      apply K2; [done|].
      destruct (Hps p ltac:(left)) as (Hp & s & Es & Hv). by exists p, s.
Qed.

Lemma assign_with_places (elim : nat → ascii → M pyret) :
  (∀ i v m m', elim i v m = (m', Val RetM) → holds_places m m') →
  ∀ i v m m', assign_with elim i v m = (m', Val RetM) → holds_places m m'.
Proof.
  intros He i v m m' H. unfold assign_with in H.
  bind_inv H. apply getitem_val in E as [-> Es]. bind_inv H.
  destruct a0; [|by unfold ret in H]. unfold ret in H. simplify_eq.
  apply (py_all_true holds_places (λ _ _, True)) in E as [K _];
    [done|apply _|apply _|done|].
  intros w ma mb _ Hw. split; [by eapply He | done].
Qed.

Lemma units_of_member i us :
  units !! i = Some us →
  Forall (λ u, u ∈ all_units) us ∧ ∀ u, u ∈ all_units → i ∈ u → u ∈ us.
Proof.
  intros E.
  assert (Hi : i < 81).
  { apply lookup_lt_Some in E. exact E. }
  destruct (units_table_facts i Hi) as (r & c & b & Eu & Er & Ec & Eb & _ & _ & _ & Hall).
  simplify_eq. split; [|done].
  apply Forall_forall. by apply (listed_units_are_units i).
Qed.

Lemma eliminate_places aoe fuel :
  ∀ i v m m', eliminate aoe fuel i v m = (m', Val RetM) → holds_places m m'.
Proof.
  induction fuel as [|fuel IH]; intros i v m m' H; [discriminate|].
  simpl in H. bind_inv H. apply getitem_val in E as [-> Es].
  destruct (char_in v a) eqn:Hin; simpl in H.
  2:{ unfold ret in H. simplify_eq. reflexivity. }
  bind_inv H. apply setitem_val in E as [-> Hlt].
  destruct (replace v a) as [|c w] eqn:Ew; [by unfold ret in H|].
  bind_inv H. destruct a1; [|by unfold ret in H].
  bind_inv H. unfold units_at in E0.
  destruct (units !! i) as [us|] eqn:Eus; [|discriminate]. simplify_eq.
  destruct (units_of_member _ _ Eus) as [Hus Hmem].
  apply unit_loop_places in H as [K Q]; [|
    intros p ma mb; apply assign_with_places; exact IH | done].
  match type of K with
  | holds_places ?x _ => assert (K0 : holds_places (<[i := c :: w]> m) x)
  end.
  { destruct w as [|c' w].
    - bind_inv E. unfold aoe_at in E0.
      destruct (aoe !! i) as [ps|]; [|discriminate]. simplify_eq.
      apply (py_all_true holds_places (λ _ _, True)) in E as [K0 _];
        [done|apply _|apply _|done|].
      intros j ma mb _ Hj. split; [by eapply IH | done].
    - unfold ret in E. simplify_eq. reflexivity. }
  intros u x Hu (j & s & Hj & Ej & Hx).
  destruct (decide (j = i ∧ x = v)) as [[-> ->]|N].
  - apply Q, Hmem; done.
  - apply K, K0; [done|done|].
    destruct (decide (j = i)) as [->|Nj].
    + simplify_eq. exists i, (c :: w). split; [done|].
      rewrite list_lookup_insert_eq by done. split; [done|].
      rewrite <- Ew. apply elem_of_replace. split; [done|].
      intros ->. by apply N.
    + exists j, s. split; [done|].
      by rewrite list_lookup_insert_ne by done.
Qed.

Lemma solve_places aoe depth fuel :
  ∀ m r, solve aoe depth fuel (Some m) = Val (Some r) → holds_places m r.
Proof.
  induction depth as [|depth IH]; intros m r H; [discriminate|].
  simpl in H. destruct m as [|s0 m0]; [discriminate|].
  set (m := s0 :: m0) in *.
  destruct (solved m) eqn:Hs.
  { simplify_eq. reflexivity. }
  destruct (scan 9 None 0 m) as [i|]; [|discriminate].
  destruct (m !! i) as [s|]; [|discriminate].
  apply try_values_some in H as (N & v & _ & H).
  destruct (assign aoe fuel i v m) as [m' [[|]|e|]] eqn:Ea; try discriminate.
  - etrans; [|by eapply IH].
    unfold assign in Ea. eapply assign_with_places; [|exact Ea].
    intros ????. apply eliminate_places.
  - destruct depth; discriminate.
Qed.

(** A solved markup in which every digit has a place in a unit holds nine
    different digits there. *)
Lemma all_placed_complete (r : Markup) u :
  u ∈ all_units → length r = 81 → solved r = true →
  (∀ w, w ∈ fullset → has_place r u w) → unit_complete r u.
Proof.
  intros Hu Hl Hs Hp. destruct (unit_shape u Hu) as [L9 ND].
  assert (Hdet : ∀ j, j ∈ u → ∃ d, r !! j = Some [d]).
  { intros j Hj. pose proof (unit_member_lt u j Hu Hj) as Hj81.
    destruct (lookup_lt_is_Some_2 r j ltac:(lia)) as [s Es].
    destruct (solved_lookup _ _ _ Hs Es) as [d ->]. eauto. }
  split; [by apply Forall_forall|].
  symmetry. apply submseteq_length_Permutation.
  - apply NoDup_submseteq; [apply fullset_NoDup|].
    intros w Hw. destruct (Hp w Hw) as (j & s & Hj & Es & Hv).
    destruct (Hdet j Hj) as [d Ed]. assert (s = [d]) as -> by congruence.
    apply list_elem_of_singleton in Hv as ->.
    apply list_elem_of_fmap. exists j. split; [|done].
    by rewrite (digit_at_lookup _ _ _ Ed).
  - rewrite length_fmap, L9. done.
Qed.

(** ** The square the search branches on *)

Lemma scan_spec min_len min_i k (m : Markup) :
  2 < min_len →
  (scan min_len min_i k m = min_i ∧
   ∀ j t, m !! j = Some t → ¬ (1 < length t < min_len)) ∨
  (∃ i s, scan min_len min_i k m = Some (k + i) ∧ m !! i = Some s ∧
          1 < length s < min_len ∧
          ∀ j t, m !! j = Some t → 1 < length t →
                 length s ≤ length t ∧ (j < i → length s < length t)).
Proof.
  revert min_len min_i k. induction m as [|t0 m IH]; intros ml mi k Hml.
  - left. split; [done|]. intros j t E. done.
  - simpl. destruct ((1 <? length t0) && (length t0 <? ml)) eqn:C.
    + apply andb_true_iff in C as [C1 C2].
      apply Nat.ltb_lt in C1. apply Nat.ltb_lt in C2.
      destruct (length t0 =? 2) eqn:E2.
      * apply Nat.eqb_eq in E2. right. exists 0, t0.
        rewrite Nat.add_0_r. split; [done|]. split; [done|].
        split; [lia|]. intros j t _ Ht. lia.
      * apply Nat.eqb_neq in E2.
        destruct (IH (length t0) (Some k) (S k) ltac:(lia))
          as [[-> Hno]|(i & s & -> & Es & Hs & Hmin)]; right.
        -- exists 0, t0. rewrite Nat.add_0_r. split; [done|].
           split; [done|]. split; [lia|]. intros [|j] t Et Ht; simpl in Et.
           ++ simplify_eq. lia.
           ++ specialize (Hno j t Et). lia.
        -- exists (S i), s. split; [f_equal; lia|]. split; [done|].
           split; [lia|]. intros [|j] t Et Ht; simpl in Et.
           ++ simplify_eq. lia.
           ++ specialize (Hmin j t Et Ht). lia.
    + apply andb_false_iff in C.
      assert (C' : ¬ (1 < length t0 < ml)).
      { destruct C as [C|C]; apply Nat.ltb_ge in C; lia. }
      destruct (IH ml mi (S k) Hml)
        as [[-> Hno]|(i & s & -> & Es & Hs & Hmin)]; [left|right].
      * split; [done|]. intros [|j] t Et; simpl in Et; [by simplify_eq|].
        by eapply Hno.
      * exists (S i), s. split; [f_equal; lia|]. split; [done|].
        split; [lia|]. intros [|j] t Et Ht; simpl in Et.
        -- simplify_eq. lia.
        -- specialize (Hmin j t Et Ht). lia.
Qed.

(** X11: the scan of [solve] selects, among the squares with 2 to 8
    candidates, the one with the fewest and of these the first; it leaves
    [min_i] unbound exactly when there is no such square. *)
Theorem scan_selects (m : Markup) :
  (scan 9 None 0 m = None ∧
   ∀ j t, m !! j = Some t → length t ≤ 1 ∨ 9 ≤ length t) ∨
  (∃ i s, scan 9 None 0 m = Some i ∧ m !! i = Some s ∧
          1 < length s < 9 ∧
          ∀ j t, m !! j = Some t → 1 < length t →
                 length s ≤ length t ∧ (j < i → length s < length t)).
Proof.
  destruct (scan_spec 9 None 0 m ltac:(lia))
    as [[E Hno]|(i & s & E & Es & Hs & Hmin)]; [left|right].
  - split; [done|]. intros j t Et. specialize (Hno j t Et). lia.
  - exists i, s. by rewrite E.
Qed.

(** ** The search cannot stall beside a repeated digit *)

(** Where a digit stands alone in two squares of a unit and every digit has
    a place in the unit, some square of the unit still has a choice. *)
Lemma crowded_unit_has_choice (m : Markup) u i j c :
  u ∈ all_units → i ∈ u → j ∈ u → i ≠ j →
  m !! i = Some [c] → m !! j = Some [c] →
  (∀ w, w ∈ fullset → has_place m u w) →
  ∃ k s, k ∈ u ∧ m !! k = Some s ∧ 1 < length s.
Proof.
  intros Hu Hi Hj N Ei Ej Hp.
  set (big := λ k, match m !! k with
                   | Some s => 1 <? length s
                   | None => false
                   end).
  destruct (existsb big u) eqn:E.
  { apply existsb_exists in E as (k & Hk & Hb). unfold big in Hb.
    destruct (m !! k) as [s|] eqn:Es; [|discriminate].
    exists k, s. split; [by apply list_elem_of_In|]. split; [done|].
    by apply Nat.ltb_lt. }
  exfalso.
  assert (Hsmall : ∀ k s, k ∈ u → m !! k = Some s → length s ≤ 1).
  { intros k s Hk Es. destruct (decide (1 < length s)) as [Hl|]; [|lia].
    assert (existsb big u = true); [|congruence].
    apply existsb_exists. exists k. split; [by apply list_elem_of_In|].
    unfold big. rewrite Es. by apply Nat.ltb_lt. }
  destruct (unit_shape u Hu) as [L9 _].
  assert (Hperm : fullset ≡ₚ digit_at m <$> u).
  { apply submseteq_length_Permutation; [|by rewrite length_fmap, L9].
    apply NoDup_submseteq; [apply fullset_NoDup|].
    intros w Hw. destruct (Hp w Hw) as (k & s & Hk & Es & Hv).
    pose proof (Hsmall k s Hk Es) as Hl.
    destruct s as [|x [|y s]]; [by apply elem_of_nil in Hv| |simpl in Hl; lia].
    apply list_elem_of_singleton in Hv as ->.
    apply list_elem_of_fmap. exists k. split; [|done].
    by rewrite (digit_at_lookup _ _ _ Es). }
  assert (Hn : NoDup (digit_at m <$> u)).
  { rewrite <- Hperm. apply fullset_NoDup. }
  apply list_elem_of_lookup in Hi as [p Hp1].
  apply list_elem_of_lookup in Hj as [q Hq1].
  assert (p = q); [|by simplify_eq].
  eapply (NoDup_lookup _ p q c Hn); rewrite list_lookup_fmap.
  - rewrite Hp1. simpl. by rewrite (digit_at_lookup _ _ _ Ei).
  - rewrite Hq1. simpl. by rewrite (digit_at_lookup _ _ _ Ej).
Qed.

Lemma try_values_not_raise body s e :
  (∀ v, v ∈ s → body v ≠ Raise e) → try_values body s ≠ Raise e.
Proof.
  intros H. destruct (try_values_cases body s) as [->|(v & Hv & ->)];
    [done | by apply H].
Qed.

(** With a digit standing alone in two squares of a unit whose squares all
    list fewer than nine candidates, the scan of [solve] always binds
    [min_i]. *)
Lemma solve_duplicate_bound aoe fuel u i j c :
  lists_aoe aoe → u ∈ all_units → i ∈ u → j ∈ u → i ≠ j →
  ∀ depth (m : Markup),
    length m = 81 → total m < fuel →
    m !! i = Some [c] → m !! j = Some [c] →
    (∀ w, w ∈ fullset → has_place m u w) →
    (∀ k s, k ∈ u → m !! k = Some s → length s < 9) →
    solve aoe depth fuel (Some m) ≠ Raise UnboundLocalError.
Proof.
  intros Ha Hu Hi Hj N.
  induction depth as [|depth IH]; intros m Hl Hf Ei Ej Hp Hshort; [done|].
  simpl. destruct m as [|s0 m0]; [done|]. set (m := s0 :: m0) in *.
  destruct (solved m); [done|].
  destruct (crowded_unit_has_choice m u i j c Hu Hi Hj N Ei Ej Hp)
    as (k & s & Hk & Es & Hs).
  pose proof (Hshort k s Hk Es) as Hs9.
  destruct (scan_spec 9 None 0 m ltac:(lia)) as [[_ Hnone]|(x & t & -> & Et & _)].
  { exfalso. apply (Hnone k s Es). lia. }
  simpl. rewrite Et. apply try_values_not_raise. intros v _.
  assert (Hx : x < 81) by (rewrite <- Hl; by eapply lookup_lt_Some).
  destruct (assign_returns aoe fuel x v m Ha Hx Hl Hf) as (m' & r & Er).
  rewrite Er. destruct r; [|by destruct depth].
  pose proof (assign_keeps _ _ _ _ _ _ Er) as [[S _] _].
  assert (Hpl : holds_places m m').
  { unfold assign in Er. eapply assign_with_places; [|exact Er].
    intros ????. apply eliminate_places. }
  apply IH.
  - rewrite (shrinks_length _ _ S). done.
  - pose proof (shrinks_total _ _ S). lia.
  - destruct (shrinks_lookup_l _ _ _ _ S Ei) as (s' & -> & L).
    by rewrite (cell_le_single _ _ L).
  - destruct (shrinks_lookup_l _ _ _ _ S Ej) as (s' & -> & L).
    by rewrite (cell_le_single _ _ L).
  - intros w Hw. by apply Hpl, Hp.
  - intros k' s' Hk' Es'.
    destruct (shrinks_lookup _ _ _ _ S Es') as (s1 & Es1 & Hsub & _).
    pose proof (Hshort k' s1 Hk' Es1). apply sublist_length in Hsub. lia.
Qed.

(** In the markup of a grid every square of a unit that holds a digit 1-9
    lists fewer than nine candidates. *)
Lemma markup_short_beside_digit aoe join (g : grid) (m : Markup) u i c :
  lists_aoe aoe → (∀ t, join t ≡ₚ t) → markup aoe join g = Val m →
  u ∈ all_units → i ∈ u → g !! i = Some c → c ∈ fullset →
  ∀ k s, k ∈ u → m !! k = Some s → length s < 9.
Proof.
  intros Ha Hjoin Hm Hu Hi Ei Hc k s Hk Es.
  destruct (markup_cell_contents _ _ _ _ _ _ Ha Hjoin Hm Es) as (Hnd & Hb & Hfix).
  assert (Hk81 : k < 81) by (by eapply unit_member_lt).
  assert (Hg : 81 ≤ length g).
  { destruct (decide (length g < 81)) as [Hlt|]; [|lia].
    rewrite (proj2 (markup_by_length aoe join g Ha) Hlt) in Hm. discriminate. }
  destruct (lookup_lt_is_Some_2 g k ltac:(lia)) as [x Ex].
  destruct (Ascii.ascii_dec x "0") as [->|Nx].
  - assert (Nk : k ≠ i).
    { intros ->. rewrite Ei in Ex. injection Ex as ->.
      revert Hc. clear. intros Hc. apply (bool_decide_pack _) in Hc.
      vm_compute in Hc. done. }
    pose proof (unit_peers u k i Hu Hk Hi Nk) as Hpeer.
    assert (Hout : c ∉ s).
    { intros Hin. apply (Hb Ex) in Hin as [_ Hfree]. by apply (Hfree i). }
    assert (Hle : length (c :: s) ≤ length fullset).
    { apply submseteq_length, NoDup_submseteq; [by constructor|].
      intros d [->|Hd]%elem_of_cons; [done|]. by apply (Hb Ex). }
    simpl in Hle. lia.
  - rewrite (Hfix x Ex Nx). simpl. lia.
Qed.

(** C3 (as amended): for a grid that holds the same digit in two squares of
    a unit, a markup that [solve(markup(grid))] returns still holds that
    digit in both squares, so that unit is not complete, and one is
    returned only if some digit 1-9 is a candidate of no square of that
    unit in [markup(grid)].  When the repeated character is a digit 1-9
    and every digit is a candidate somewhere in the unit, [solve] returns
    [None]. *)
Theorem duplicate_board_fails aoe join depth fuel
    (g : grid) (m : Markup) u i j c :
  lists_aoe aoe → (∀ t, join t ≡ₚ t) →
  duplicate_in_unit g u i j c →
  markup aoe join g = Val m →
  (∀ r, solve_grid aoe join depth fuel g = Val (Some r) →
        r !! i = Some [c] ∧ r !! j = Some [c] ∧ ¬ unit_complete r u ∧
        ¬ ∀ w, w ∈ fullset → has_place m u w) ∧
  (c ∈ fullset → (∀ w, w ∈ fullset → has_place m u w) →
   81 < depth → 729 < fuel →
   solve_grid aoe join depth fuel g = Val None).
Proof.
  intros Ha Hjoin (Hu & Hi & Hj & N & Ei & Ej & Hc) Hm.
  assert (Hi81 : i < 81) by (by eapply unit_member_lt).
  assert (Hj81 : j < 81) by (by eapply unit_member_lt).
  assert (Hret : ∀ r, solve_grid aoe join depth fuel g = Val (Some r) →
            r !! i = Some [c] ∧ r !! j = Some [c] ∧ ¬ unit_complete r u ∧
            ¬ ∀ w, w ∈ fullset → has_place m u w).
  { intros r H.
    pose proof (solve_grid_fixed aoe join depth fuel g r i c H Hi81 Ei Hc)
      as Ri.
    pose proof (solve_grid_fixed aoe join depth fuel g r j c H Hj81 Ej Hc)
      as Rj.
    pose proof (repeated_digit_incomplete r u i j c Hi Hj N Ri Rj) as Hnc.
    split; [done|]. split; [done|]. split; [done|].
    intros Hp. apply Hnc.
    pose proof (solve_grid_some _ _ _ _ _ _ H) as (m1 & Hm1 & Hs & _ & S & _).
    rewrite Hm in Hm1. injection Hm1 as <-.
    apply all_placed_complete; [done| |done|].
    - rewrite (shrinks_length _ _ S). by eapply markup_length.
    - intros w Hw. unfold solve_grid in H. rewrite Hm in H.
      by apply (solve_places _ _ _ _ _ H u w Hu), Hp. }
  split; [exact Hret|].
  intros Hdigit Hp Hd Hf.
  assert (Hg : 81 ≤ length g).
  { destruct (decide (length g < 81)) as [Hlt|]; [|lia].
    rewrite (proj2 (markup_by_length aoe join g Ha) Hlt) in Hm. discriminate. }
  destruct (solve_no_index_error_grid aoe join depth fuel g Ha Hjoin Hg Hd Hf)
    as [[[r|] E]|E]; [|done|].
  - destruct (Hret r E) as (_ & _ & _ & Hn). by destruct Hn.
  - exfalso. unfold solve_grid in E. rewrite Hm in E. revert E.
    pose proof (markup_length _ _ _ _ Hm) as Hl.
    destruct (markup_cells_small _ _ _ _ Ha Hjoin Hm) as [_ Hsmall].
    apply (solve_duplicate_bound aoe fuel u i j c); try done.
    + pose proof (total_le m Hsmall). lia.
    + by eapply markup_fixed.
    + by eapply markup_fixed.
    + by eapply markup_short_beside_digit.
Qed.

Lemma duplicate_board_fails_witness :
  solve_grid aoe_table id 82 730 two_fives_grid = Val None.
Proof.
  apply (duplicate_board_fails aoe_table id 82 730 two_fives_grid
           (val_or_nil (markup aoe_table id two_fives_grid))
           (seq 0 9) 0 1 "5"%char).
  - apply lists_aoe_table.
  - reflexivity.
  - repeat split; try done; apply (bool_decide_unpack _); vm_compute; exact I.
  - vm_compute. reflexivity.
  - apply (bool_decide_unpack _). vm_compute. exact I.
  - intros w Hw. apply has_placeb_ok.
    apply list_elem_of_In in Hw. revert w Hw. apply forallb_forall.
    vm_compute. reflexivity.
  - lia.
  - lia.
Defined.

(** ** The consistency check *)

Lemma remove_dups_length (t : list ascii) :
  length (remove_dups t) ≤ length t ∧
  (length (remove_dups t) = length t ↔ NoDup t).
Proof.
  induction t as [|x t [IH1 IH2]]; simpl.
  - split; [done|]. split; [constructor | done].
  - rewrite NoDup_cons. destruct (decide_rel elem_of x t) as [Hx|Hx]; simpl.
    + split; [lia|]. split; [lia | tauto].
    + split; [lia|]. split.
      * intros E. split; [done|]. apply IH2. lia.
      * intros [_ Hn]. apply IH2 in Hn. lia.
Qed.

Lemma unit_repeat_cases (g : grid) u cs :
  NoDup u → Forall2 (λ j c, g !! j = Some c) u cs →
  let t := List.filter (λ c, negb (Ascii.eqb c "0")) cs in
  (NoDup t ∧
   ¬ ∃ i j c, i ∈ u ∧ j ∈ u ∧ i ≠ j ∧
              g !! i = Some c ∧ g !! j = Some c ∧ c ≠ "0"%char) ∨
  (¬ NoDup t ∧
   ∃ i j c, i ∈ u ∧ j ∈ u ∧ i ≠ j ∧
            g !! i = Some c ∧ g !! j = Some c ∧ c ≠ "0"%char).
Proof.
  intros Hn H. simpl. induction H as [|j c u cs Hj H IH].
  - left. split; [constructor|]. intros (i & j & c & Hi & _). by inversion Hi.
  - apply NoDup_cons in Hn as [Hju Hn]. specialize (IH Hn).
    assert (Hin : ∀ d, d ∈ List.filter (λ c, negb (Ascii.eqb c "0")) cs →
                       d ≠ "0"%char ∧ ∃ i, i ∈ u ∧ g !! i = Some d).
    { intros d Hd. apply elem_of_bfilter in Hd as [Hd Hz].
      apply negb_true_iff, Ascii.eqb_neq in Hz. split; [done|].
      apply list_elem_of_lookup in Hd as [k Hk].
      destruct (Forall2_lookup_r _ _ _ _ _ H Hk) as (i & Hi & Hg).
      exists i. split; [by eapply list_elem_of_lookup_2 | done]. }
    assert (Hout : ∀ i d, i ∈ u → g !! i = Some d → d ≠ "0"%char →
                          d ∈ List.filter (λ c, negb (Ascii.eqb c "0")) cs).
    { intros i d Hi Hg Hz. apply elem_of_bfilter. split.
      - apply list_elem_of_lookup in Hi as [k Hk].
        destruct (Forall2_lookup_l _ _ _ _ _ H Hk) as (d' & Hd' & Hg').
        rewrite Hg in Hg'. injection Hg' as <-.
        by eapply list_elem_of_lookup_2.
      - by apply negb_true_iff, Ascii.eqb_neq. }
    destruct IH as [[Ht Hno]|[Ht (i1 & i2 & d & H1 & H2 & N & G1 & G2 & Hz)]].
    2:{ right. split.
        - intros Hc. apply Ht. simpl in Hc.
          destruct (negb (Ascii.eqb c "0")); [|done].
          by apply NoDup_cons in Hc as [_ ?].
        - exists i1, i2, d. repeat split; try done; by right. }
    simpl. destruct (Ascii.eqb c "0") eqn:Ez; simpl.
    + apply Ascii.eqb_eq in Ez as ->. left. split; [done|].
      intros (i1 & i2 & d & H1 & H2 & N & G1 & G2 & Hz).
      apply elem_of_cons in H1 as [->|H1];
        [by simplify_eq|].
      apply elem_of_cons in H2 as [->|H2];
        [by simplify_eq|].
      apply Hno. exists i1, i2, d. by repeat split.
    + apply Ascii.eqb_neq in Ez.
      destruct (decide (c ∈ List.filter (λ c, negb (Ascii.eqb c "0")) cs))
        as [Hc|Hc].
      * right. split; [rewrite NoDup_cons; tauto|].
        destruct (Hin c Hc) as (_ & i & Hi & Hg).
        exists j, i, c. repeat split; try done; [by left|by right|].
        intros ->. done.
      * left. split; [by apply NoDup_cons|].
        intros (i1 & i2 & d & H1 & H2 & N & G1 & G2 & Hz).
        apply elem_of_cons in H1 as [->|H1];
          apply elem_of_cons in H2 as [->|H2]; try done.
        -- rewrite Hj in G1. injection G1 as <-. apply Hc. by eapply Hout.
        -- rewrite Hj in G2. injection G2 as <-. apply Hc. by eapply Hout.
        -- apply Hno. exists i1, i2, d. by repeat split.
Qed.

Lemma no_repeat_in_spec (g : grid) us :
  81 ≤ length g → Forall (λ u, u ∈ all_units) us →
  (no_repeat_in g us = Val true ∧
   ∀ u, u ∈ us →
        ¬ ∃ i j c, i ∈ u ∧ j ∈ u ∧ i ≠ j ∧
                   g !! i = Some c ∧ g !! j = Some c ∧ c ≠ "0"%char) ∨
  (no_repeat_in g us = Val false ∧
   ∃ u, u ∈ us ∧
        ∃ i j c, i ∈ u ∧ j ∈ u ∧ i ≠ j ∧
                 g !! i = Some c ∧ g !! j = Some c ∧ c ≠ "0"%char).
Proof.
  intros Hg. induction 1 as [|u us Hu _ IH]; simpl.
  - left. split; [done|]. intros u Hu. by inversion Hu.
  - destruct (gather_total g u) as [cs E].
    { apply Forall_forall. intros j Hj.
      pose proof (unit_member_lt u j Hu Hj). lia. }
    rewrite E. apply gather_spec in E.
    destruct (unit_shape u Hu) as [_ Hn].
    destruct (remove_dups_length
                (List.filter (λ c, negb (Ascii.eqb c "0")) cs)) as [_ Hrd].
    destruct (unit_repeat_cases g u cs Hn E) as [[Ht Hno]|[Ht Hdup]].
    + rewrite (proj2 (Nat.eqb_eq _ _)) by (symmetry; by apply Hrd).
      destruct IH as [[-> Hall]|[-> (u' & Hu' & Hd)]].
      * left. split; [done|]. intros u' [->|Hu']%elem_of_cons; auto.
      * right. split; [done|]. exists u'. split; [by right | done].
    + rewrite (proj2 (Nat.eqb_neq _ _)).
      * right. split; [done|]. exists u. split; [by left | done].
      * intros Heq. apply Ht, Hrd. by symmetry.
Qed.

Lemma no_repeat_in_gathered (g : grid) us u :
  no_repeat_in g us = Val true → u ∈ us → ∃ cs, gather g u = Val cs.
Proof.
  induction us as [|u0 us IH]; simpl; intros H Hu; [by inversion Hu|].
  destruct (gather g u0) as [cs| |] eqn:E; try discriminate.
  destruct (_ =? _); [|discriminate].
  apply elem_of_cons in Hu as [->|Hu]; [by eexists | by apply IH].
Qed.

(** X12: on a grid of at least 81 characters [quick_check] returns [False]
    exactly when some unit holds the same digit in two of its squares, and
    [True] otherwise; on a shorter grid it never returns [True]. *)
Theorem quick_check_spec (g : grid) :
  (81 ≤ length g →
   (quick_check g = Val true ∧ ¬ ∃ u i j c, duplicate_in_unit g u i j c) ∨
   (quick_check g = Val false ∧ ∃ u i j c, duplicate_in_unit g u i j c)) ∧
  (length g < 81 → quick_check g ≠ Val true).
Proof.
  split.
  - intros Hg. unfold quick_check. fold all_units.
    destruct (no_repeat_in_spec g all_units Hg)
      as [[E Hno]|[E (u & Hu & i & j & c & Hd)]].
    { by apply Forall_forall. }
    + left. split; [done|].
      intros (u & i & j & c & Hu & Hd). apply (Hno u Hu). by exists i, j, c.
    + right. split; [done|]. exists u, i, j, c. by split.
  - intros Hg E. unfold quick_check in E. fold all_units in E.
    destruct (units_table_facts (length g) Hg)
      as (r & c & b & _ & Er & Ec & Eb & Hr & _).
    assert (Hu : r ∈ all_units).
    { eapply listed_units_are_units; [exact Er|exact Ec|exact Eb|by left]. }
    destruct (no_repeat_in_gathered g all_units r E Hu) as [cs Ecs].
    apply gather_spec in Ecs.
    apply list_elem_of_lookup in Hr as [k Hk].
    destruct (Forall2_lookup_l _ _ _ _ _ Ecs Hk) as (d & _ & Hd).
    apply lookup_lt_Some in Hd. lia.
Qed.

Lemma quick_check_spec_witness :
  (quick_check easy_grid = Val true ∧
   ¬ ∃ u i j c, duplicate_in_unit easy_grid u i j c) ∨
  (quick_check easy_grid = Val false ∧
   ∃ u i j c, duplicate_in_unit easy_grid u i j c).
Proof. apply (proj1 (quick_check_spec easy_grid)). vm_compute. lia. Defined.

(** ** Printing a board *)

Lemma display_from_cons i v (m : Markup) :
  display_from i (v :: m)
  = v ++ (if S i mod 9 =? 0 then [newline] else []) ++ display_from (S i) m.
Proof. reflexivity. Qed.

Lemma mod9_succ i : i mod 9 < 8 → S i mod 9 = S (i mod 9).
Proof.
  intros H. pose proof (Nat.div_mod_eq i 9).
  symmetry. apply (Nat.mod_unique (S i) 9 (i / 9)); lia.
Qed.

Lemma mod9_wrap i : i mod 9 = 8 → S i mod 9 = 0.
Proof.
  intros H. pose proof (Nat.div_mod_eq i 9).
  symmetry. apply (Nat.mod_unique (S i) 9 (S (i / 9))); lia.
Qed.

(** Strings that do not reach the end of a row are written one after the
    other. *)
Lemma display_from_part (r : list cell) i (m : Markup) :
  i mod 9 + length r < 9 →
  display_from i (r ++ m) = concat r ++ display_from (i + length r) m.
Proof.
  revert i. induction r as [|v r IH]; intros i H; simpl length in *.
  - simpl. by rewrite Nat.add_0_r.
  - change ((v :: r) ++ m) with (v :: (r ++ m)).
    rewrite display_from_cons, mod9_succ by lia.
    change (S (i mod 9) =? 0) with false. simpl app.
    rewrite IH by (rewrite mod9_succ; lia).
    simpl concat. rewrite <- app_assoc. do 3 f_equal. lia.
Qed.

(** A full row is followed by a newline. *)
Lemma display_from_row (r : list cell) i (m : Markup) :
  i mod 9 = 0 → length r = 9 →
  display_from i (r ++ m)
  = concat r ++ [newline] ++ display_from (i + 9) m ∧ (i + 9) mod 9 = 0.
Proof.
  intros Hi Hr.
  destruct (decide (r = [])) as [->|N]; [discriminate|].
  destruct (exists_last N) as (r8 & v & ->). clear N.
  rewrite length_app in Hr. simpl in Hr.
  assert (E8 : (i + length r8) mod 9 = 8).
  { pose proof (Nat.div_mod_eq i 9).
    symmetry. apply (Nat.mod_unique _ 9 (i / 9)); lia. }
  split.
  - rewrite <- app_assoc, display_from_part by lia.
    change ([v] ++ m) with (v :: m).
    rewrite display_from_cons, mod9_wrap by done.
    change (0 =? 0) with true.
    rewrite concat_app. simpl concat. rewrite app_nil_r, <- !app_assoc.
    do 4 f_equal. lia.
  - pose proof (Nat.div_mod_eq i 9).
    symmetry. apply (Nat.mod_unique _ 9 (S (i / 9))); lia.
Qed.

Lemma display_from_rows (rs : list (list cell)) (rest : list cell) i :
  i mod 9 = 0 → Forall (λ r, length r = 9) rs → length rest < 9 →
  display_from i (concat rs ++ rest)
  = concat ((λ r, concat r ++ [newline]) <$> rs) ++ concat rest ++ [newline].
Proof.
  intros Hi Hrs Hrest. revert i Hi.
  induction Hrs as [|r rs Hr _ IH]; intros i Hi.
  - simpl. rewrite <- (app_nil_r rest) at 1.
    rewrite display_from_part by lia. done.
  - simpl concat. rewrite <- app_assoc.
    destruct (display_from_row r i (concat rs ++ rest) Hi Hr) as [-> Hi'].
    rewrite (IH _ Hi'). simpl fmap. simpl concat. by rewrite <- !app_assoc.
Qed.

(** X13: [display] writes the strings in order, a newline after each full
    row of nine strings and one more newline at the end: for a list made
    of full rows followed by fewer than nine strings, the output is each
    row's strings and a newline, then the remaining strings and a
    newline. *)
Theorem display_layout (rs : list (list cell)) (rest : list cell) :
  Forall (λ r, length r = 9) rs → length rest < 9 →
  display_from 0 (concat rs ++ rest)
  = concat ((λ r, concat r ++ [newline]) <$> rs) ++ concat rest ++ [newline].
Proof. intros Hrs Hrest. by apply display_from_rows. Qed.

Lemma display_layout_witness :
  display_from 0 (concat [take 9 easy_markup; take 9 (drop 9 easy_markup)]
                  ++ take 3 (drop 18 easy_markup))
  = concat ((λ r, concat r ++ [newline])
              <$> [take 9 easy_markup; take 9 (drop 9 easy_markup)])
    ++ concat (take 3 (drop 18 easy_markup)) ++ [newline].
Proof.
  apply (display_layout [take 9 easy_markup; take 9 (drop 9 easy_markup)]
           (take 3 (drop 18 easy_markup))).
  - apply (bool_decide_unpack _). vm_compute. exact I.
  - apply (bool_decide_unpack _). vm_compute. exact I.
Defined.

(** ** The test harness *)

Lemma check_from_passed (r : Markup) k (cs : grid) (g : grid) :
  (∀ i c, g !! i = Some c → c ≠ "0"%char → r !! i = Some [c]) →
  (∀ i, cs !! i = g !! (k + i)) →
  check_from r k cs = Passed.
Proof.
  intros Hr. revert k. induction cs as [|c cs IH]; intros k Hcs; simpl; [done|].
  assert (Hc : g !! k = Some c).
  { specialize (Hcs 0). simpl in Hcs. by rewrite Nat.add_0_r in Hcs. }
  assert (Hnext : check_from r (S k) cs = Passed).
  { apply IH. intros i. specialize (Hcs (S i)). simpl in Hcs.
    by replace (S k + i) with (k + S i) by lia. }
  destruct (Ascii.eqb c "0") eqn:E; [done|].
  apply Ascii.eqb_neq in E. rewrite (Hr k c Hc E).
  by rewrite bool_decide_eq_true_2.
Qed.

Lemma harness_step_cases aoe join depth fuel count (g : grid) :
  lists_aoe aoe → (∀ t, join t ≡ₚ t) → length g = 81 →
  81 < depth → 729 < fuel →
  (∃ r, solve_grid aoe join depth fuel g = Val (Some r) ∧
        harness_step aoe join depth fuel count g
        = ([Board (display_from 0 r)], S count, Passed)) ∨
  (solve_grid aoe join depth fuel g = Val None ∧
   harness_step aoe join depth fuel count g
   = ([NoSolution count], count, Failed TypeError)) ∨
  (solve_grid aoe join depth fuel g = Raise UnboundLocalError ∧
   harness_step aoe join depth fuel count g
   = ([], count, Failed (Solver UnboundLocalError))).
Proof.
  intros Ha Hj Hg Hd Hf. unfold harness_step.
  destruct (solve_no_index_error_grid aoe join depth fuel g Ha Hj
              ltac:(lia) Hd Hf) as [[[r|] E]|E]; rewrite E.
  - left. exists r. split; [done|].
    pose proof (solve_grid_some _ _ _ _ _ _ E) as (m & _ & _ & N & _).
    destruct r as [|s0 r0]; [done|]. simpl. f_equal.
    apply (check_from_passed _ 0 g g); [|done].
    intros i c Hc Hz. eapply solve_grid_fixed; eauto.
    apply lookup_lt_Some in Hc. lia.
  - right. left. done.
  - right. right. done.
Qed.

(** X14: for a grid of 81 characters the body of the harness loop ends in
    one of three ways.  If the solver returns a markup, the board is
    displayed, the count goes up and every [assert] holds.  If it returns
    [None], the line 'No solution for grid' is written and [display(None)]
    raises [TypeError].  Otherwise the solver's [UnboundLocalError] ends
    it.  No [assert] ever fails. *)
Theorem harness_step_outcomes aoe join depth fuel count (g : grid) :
  lists_aoe aoe → (∀ t, join t ≡ₚ t) → length g = 81 →
  81 < depth → 729 < fuel →
  (∃ r, solve_grid aoe join depth fuel g = Val (Some r) ∧
        harness_step aoe join depth fuel count g
        = ([Board (display_from 0 r)], S count, Passed)) ∨
  (solve_grid aoe join depth fuel g = Val None ∧
   harness_step aoe join depth fuel count g
   = ([NoSolution count], count, Failed TypeError)) ∨
  (solve_grid aoe join depth fuel g = Raise UnboundLocalError ∧
   harness_step aoe join depth fuel count g
   = ([], count, Failed (Solver UnboundLocalError))).
Proof. apply harness_step_cases. Qed.

Lemma harness_step_outcomes_witness :
  (∃ r, solve_grid aoe_table id 82 730 easy_grid = Val (Some r) ∧
        harness_step aoe_table id 82 730 0 easy_grid
        = ([Board (display_from 0 r)], 1, Passed)) ∨
  (solve_grid aoe_table id 82 730 easy_grid = Val None ∧
   harness_step aoe_table id 82 730 0 easy_grid
   = ([NoSolution 0], 0, Failed TypeError)) ∨
  (solve_grid aoe_table id 82 730 easy_grid = Raise UnboundLocalError ∧
   harness_step aoe_table id 82 730 0 easy_grid
   = ([], 0, Failed (Solver UnboundLocalError))).
Proof.
  apply (harness_step_outcomes aoe_table id 82 730 0 easy_grid).
  - apply lists_aoe_table.
  - reflexivity.
  - vm_compute. reflexivity.
  - lia.
  - lia.
Defined.


